(** * flatnotes: index synchronisation, tag extraction and search

    A shallow embedding of [flatnotes/flatnotes.py] and the properties its
    specification states about it.

    Conventions of the embedding.
    - A Python [str] is a list of characters ([str := list ascii]).  The
      character tables ([\w], [\s], [str.lower], [str.strip]) are the ones
      Python uses on the ASCII range; text outside ASCII is not modelled.
    - A Python exception is a value of [exn]; a call that can raise returns
      a [result].
    - The file system is a list of regular files with their full path,
      modification time and content.  Directories are the prefixes of the
      paths; a directory whose own name ends in [.md] is not modelled.
    - A time stamp ([os.path.getmtime], [datetime.fromtimestamp], the
      DATETIME field of the index) is an integer number of microseconds.
    - The Whoosh index is the list of its committed documents, in document
      number order, and a writer is the pair of the committed documents it
      still keeps and the documents added since it was opened. *)

From Stdlib Require Import List Bool Arith ZArith Lia Ascii String.
From Stdlib Require Import Permutation Sorted.
Import ListNotations.

Set Implicit Arguments.
Local Open Scope list_scope.

(* ================================================================== *)
(** ** Python values: strings and exceptions *)

Definition str := list ascii.

(** String literals of the source are written [lit "..."]. *)
Definition lit (s : string) : str := list_ascii_of_string s.

Definition str_eqb (a b : str) : bool :=
  if list_eq_dec ascii_dec a b then true else false.

(** [x in l] for a list or a set of strings. *)
Definition str_in (x : str) (l : list str) : bool := existsb (str_eqb x) l.

Inductive exn : Type :=
| InvalidTitleError
| FileNotFoundError
| AttributeError
| IndexError
| ValueError
| QueryError.

Definition exn_eqb (a b : exn) : bool :=
  match a, b with
  | InvalidTitleError, InvalidTitleError
  | FileNotFoundError, FileNotFoundError
  | AttributeError, AttributeError
  | IndexError, IndexError
  | ValueError, ValueError
  | QueryError, QueryError => true
  | _, _ => false
  end.

Inductive result (A : Type) : Type :=
| Ok (a : A)
| Raise (e : exn).

Arguments Ok {A} a.
Arguments Raise {A} e.

Definition bind {A B : Type} (m : result A) (f : A -> result B) : result B :=
  match m with
  | Ok a => f a
  | Raise e => Raise e
  end.

Notation "x <- m ;; k" := (bind m (fun x => k))
  (at level 61, m at next level, right associativity).

(** [try: body except e: handler]. *)
Definition try_except {A : Type} (body : result A) (e : exn)
    (handler : result A) : result A :=
  match body with
  | Ok a => Ok a
  | Raise e' => if exn_eqb e e' then handler else Raise e'
  end.

(* ------------------------------------------------------------------ *)
(** *** Character tables (ASCII range) *)

Definition code (c : ascii) : nat := nat_of_ascii c.

Definition between (lo hi : nat) (c : ascii) : bool :=
  (lo <=? code c) && (code c <=? hi).

(** [\s] and [str.isspace]: TAB..CR, FS..US and the space. *)
Definition is_space (c : ascii) : bool :=
  between 9 13 c || between 28 32 c.

(** [\w]: digits, letters and the underscore. *)
Definition is_word (c : ascii) : bool :=
  between 48 57 c || between 65 90 c || between 97 122 c || (code c =? 95).

Definition lower_char (c : ascii) : ascii :=
  if between 65 90 c then ascii_of_nat (code c + 32) else c.

(** [str.lower()] *)
Definition lower (s : str) : str := map lower_char s.

Fixpoint lstrip (s : str) : str :=
  match s with
  | c :: s' => if is_space c then lstrip s' else s
  | [] => []
  end.

Definition rstrip (s : str) : str := rev (lstrip (rev s)).

(** [str.strip()] *)
Definition strip (s : str) : str := rstrip (lstrip s).

(** [sep.join(l)] *)
Fixpoint join (sep : str) (l : list str) : str :=
  match l with
  | [] => []
  | [x] => x
  | x :: l' => x ++ sep ++ join sep l'
  end.

(** [needle in hay] for two strings: [needle] occurs in [hay]. *)
Fixpoint starts_with (p s : str) : bool :=
  match p, s with
  | [], _ => true
  | x :: p', y :: s' => Ascii.eqb x y && starts_with p' s'
  | _ :: _, [] => false
  end.

Fixpoint contains (needle hay : str) : bool :=
  starts_with needle hay ||
  match hay with
  | [] => false
  | _ :: hay' => contains needle hay'
  end.

(** [set(l)]: a set of strings is a duplicate-free list; the order of its
    elements carries no meaning. *)
Definition set_of (l : list str) : list str :=
  nodup (list_eq_dec ascii_dec) l.

(* ------------------------------------------------------------------ *)
(** *** The regular expressions of the [re] module that the source uses *)

Inductive regex : Type :=
| Lit (c : ascii)              (* a literal character *)
| Class (p : ascii -> bool)    (* \w, \s *)
| Bol                          (* ^ *)
| Eol                          (* $ *)
| Cat (r1 r2 : regex)          (* r1 r2 *)
| Alt (r1 r2 : regex)          (* r1|r2 *)
| Plus (p : ascii -> bool)     (* c+ on a character class, greedy *)
| Behind (r : regex)           (* (?<=r), r of fixed width *)
| Ahead (r : regex).           (* (?=r) *)

(** The width of a fixed-width pattern, as [re] computes it for a
    look-behind. *)
Fixpoint width (r : regex) : nat :=
  match r with
  | Lit _ | Class _ => 1
  | Cat r1 r2 => width r1 + width r2
  | Alt r1 _ => width r1
  | Plus _ => 1
  | Bol | Eol | Behind _ | Ahead _ => 0
  end.

(** A cursor in the subject string: the text before it, nearest character
    first, and the text after it. *)
Fixpoint back (n : nat) (b a : str) : option (str * str) :=
  match n with
  | 0 => Some (b, a)
  | S n' => match b with
            | x :: b' => back n' b' (x :: a)
            | [] => None
            end
  end.

(** [c*], longest first, giving characters back one at a time. *)
Fixpoint star_loop {A : Type} (p : ascii -> bool) (b a : str)
    (k : str -> str -> option A) : option A :=
  match a with
  | x :: a' =>
      if p x then
        match star_loop p (x :: b) a' k with
        | Some v => Some v
        | None => k b a
        end
      else k b a
  | [] => k b a
  end.

(** The backtracking matcher: [rmatch r b a k] matches [r] at the cursor
    [(b, a)] and hands the cursor after the match to [k]; when [k] refuses
    it tries the next way to match, in the order [re] does. *)
Fixpoint rmatch (r : regex) {A : Type} (b a : str)
    (k : str -> str -> option A) {struct r} : option A :=
  match r with
  | Lit c =>
      match a with
      | x :: a' => if Ascii.eqb x c then k (x :: b) a' else None
      | [] => None
      end
  | Class p =>
      match a with
      | x :: a' => if p x then k (x :: b) a' else None
      | [] => None
      end
  | Bol => match b with [] => k b a | _ :: _ => None end
  | Eol =>
      match a with
      | [] => k b a
      | [x] => if Ascii.eqb x "010" then k b a else None
      | _ => None
      end
  | Cat r1 r2 => rmatch r1 b a (fun b' a' => rmatch r2 b' a' k)
  | Alt r1 r2 =>
      match rmatch r1 b a k with
      | Some v => Some v
      | None => rmatch r2 b a k
      end
  | Plus p =>
      match a with
      | x :: a' => if p x then star_loop p (x :: b) a' k else None
      | [] => None
      end
  | Behind r1 =>
      match back (width r1) b a with
      | Some (b0, a0) =>
          match rmatch r1 b0 a0
                  (fun _ a' => if List.length a' =? List.length a then Some tt else None)
          with
          | Some _ => k b a
          | None => None
          end
      | None => None
      end
  | Ahead r1 =>
      match rmatch r1 b a (fun _ _ => Some tt) with
      | Some _ => k b a
      | None => None
      end
  end.

(** The length of the match of [r] that starts at the cursor, if any. *)
Definition match_at (r : regex) (b a : str) : option nat :=
  rmatch r b a (fun _ a' => Some (List.length a - List.length a')).

(** The subject cut into the characters no match covers and the matches,
    left to right, as [re.sub] and [re.finditer] walk it.  [skip] counts
    the characters of the current match still to step over. *)
Inductive piece : Type :=
| Keep (c : ascii)
| Found (m : str).

Fixpoint pieces (r : regex) (b a : str) (skip : nat) {struct a} : list piece :=
  match a with
  | [] =>
      match skip, match_at r b [] with
      | 0, Some _ => [Found []]
      | _, _ => []
      end
  | x :: a' =>
      match skip with
      | S n => pieces r (x :: b) a' n
      | 0 =>
          match match_at r b a with
          | Some (S n) => Found (firstn (S n) a) :: pieces r (x :: b) a' n
          | Some 0 => Found [] :: Keep x :: pieces r (x :: b) a' 0
          | None => Keep x :: pieces r (x :: b) a' 0
          end
      end
  end.

(** [re.sub(r, repl, s)] with a function [repl] of the matched text. *)
Definition re_sub (r : regex) (repl : str -> str) (s : str) : str :=
  flat_map (fun p => match p with Keep c => [c] | Found m => repl m end)
           (pieces r [] s 0).

(** [[m.group(0) for m in re.finditer(r, s)]] *)
Definition re_findall (r : regex) (s : str) : list str :=
  flat_map (fun p => match p with Keep _ => [] | Found m => [m] end)
           (pieces r [] s 0).

(** Modelled from the spec: [helpers.re_extract] is imported by the source
    but is not part of it.  The specification of the Tag Extractor gives its
    result: the content with all matched tokens removed, and the matched
    tokens. *)
Definition re_extract (r : regex) (s : str) : str * list str :=
  (re_sub r (fun _ => []) s, re_findall r s).

(** Modelled from the spec: [helpers.strip_ext] is imported by the source
    but is not part of it.  It returns a file name without its extension:
    the name up to its last dot, or the whole name when it has no dot. *)
Fixpoint strip_ext_rev (r : str) : option str :=
  match r with
  | [] => None
  | c :: r' => if Ascii.eqb c "." then Some r' else strip_ext_rev r'
  end.

Definition strip_ext (name : str) : str :=
  match strip_ext_rev (rev name) with
  | Some r => rev r
  | None => name
  end.

(* ================================================================== *)
(** ** [Flatnotes.TAGS_RE], [Flatnotes.TAGS_WITH_HASH_RE] and their users *)

Definition MARKDOWN_EXT : str := lit ".md".

(** [(?:(?<=^#)|(?<=\s#))\w+(?=\s|$)] *)
Definition TAGS_RE : regex :=
  Cat (Alt (Behind (Cat Bol (Lit "#")))
           (Behind (Cat (Class is_space) (Lit "#"))))
      (Cat (Plus is_word)
           (Ahead (Alt (Class is_space) Eol))).

(** [(?:(?<=^)|(?<=\s))#\w+(?=\s|$)] *)
Definition TAGS_WITH_HASH_RE : regex :=
  Cat (Alt (Behind Bol) (Behind (Class is_space)))
      (Cat (Lit "#")
           (Cat (Plus is_word)
                (Ahead (Alt (Class is_space) Eol)))).

(** [Flatnotes.extract_tags] *)
Definition extract_tags (content : str) : result (str * list str) :=
  let (content_ex_tags, tags) := re_extract TAGS_RE content in
  try_except
    (let tags := map lower tags in
     Ok (content_ex_tags, set_of tags))
    IndexError
    (Ok (content, [])).

(** [Flatnotes.pre_process_search_term] *)
Definition pre_process_search_term (term : str) : str :=
  let term := strip term in
  re_sub TAGS_WITH_HASH_RE (fun tag => lit "tags:" ++ tl tag) term.

(* ================================================================== *)
(** ** The note store: paths and files *)

Record File : Type := mkFile {
  f_path : str;
  f_mtime : Z;
  f_content : str
}.

Definition FS := list File.

Definition ends_with (suffix s : str) : bool :=
  starts_with (rev suffix) (rev s).

(** [os.path.join(a, b)] *)
Definition path_join (a b : str) : str :=
  if starts_with (lit "/") b then b
  else match a with
       | [] => b
       | _ :: _ => if ends_with (lit "/") a then a ++ b else a ++ lit "/" ++ b
       end.

(** [s.split(sep)] for a one-character separator. *)
Fixpoint split_on (sep : ascii) (s : str) : list str :=
  match s with
  | [] => [[]]
  | c :: s' =>
      if Ascii.eqb c sep then [] :: split_on sep s'
      else match split_on sep s' with
           | w :: ws => (c :: w) :: ws
           | [] => [[c]]
           end
  end.

(** [os.path.split(p)[1]]: what follows the last slash. *)
Definition basename (p : str) : str := last (split_on "/" p) [].

(** [os.path.dirname(p)], and [os.path.relpath(d, start)] for a directory
    [d] at or below [start]. *)
Definition dirname (p : str) : str :=
  join (lit "/") (removelast (split_on "/" p)).

Definition relpath (d start : str) : str :=
  if str_eqb d start then lit "."
  else if starts_with (path_join start []) d
       then skipn (List.length (path_join start [])) d
       else d.

Definition hidden (name : str) : bool := starts_with (lit ".") name.

Definition is_empty (s : str) : bool :=
  match s with [] => true | _ :: _ => false end.

(** A path matches [os.path.join(dir, "**/*.md")] with [recursive=True]
    when it lies below [dir], none of its components below [dir] is empty
    or hidden, and its last component ends in [.md]. *)
Definition glob_match (dir p : str) : bool :=
  let prefix := path_join dir [] in
  starts_with prefix p &&
  (let comps := split_on "/" (skipn (List.length prefix) p) in
   forallb (fun c => negb (is_empty c) && negb (hidden c)) comps &&
   ends_with MARKDOWN_EXT (last comps [])).

(** [glob.glob(os.path.join(dir, "**/*" + MARKDOWN_EXT), recursive=True)];
    the files come in the order the file system lists them. *)
Definition glob_md (dir : str) (fs : FS) : list str :=
  map f_path (filter (fun f => glob_match dir (f_path f)) fs).

Definition find_file (fs : FS) (p : str) : option File :=
  find (fun f => str_eqb (f_path f) p) fs.

(** [os.path.exists(p)] *)
Definition path_exists (fs : FS) (p : str) : bool :=
  match find_file fs p with Some _ => true | None => false end.

(** [os.path.getmtime(p)] *)
Definition getmtime (fs : FS) (p : str) : result Z :=
  match find_file fs p with
  | Some f => Ok (f_mtime f)
  | None => Raise FileNotFoundError
  end.

(** [open(p, "r").read()] *)
Definition read_file (fs : FS) (p : str) : result str :=
  match find_file fs p with
  | Some f => Ok (f_content f)
  | None => Raise FileNotFoundError
  end.

(* ================================================================== *)
(** ** class [Note] *)

Record Note : Type := mkNote {
  _title : str;
  subdirs : str
}.

(** [Note._is_valid_title]: none of the characters of [invalid_chars]
    (the double quote is character 34) occurs in the title. *)
Definition invalid_chars : str :=
  lit "<>:" ++ ["034"%char] ++ lit "/\|?*".

Definition _is_valid_title (title : str) : bool :=
  negb (existsb (fun invalid_char => contains [invalid_char] title)
                invalid_chars).

(** [Note.__init__] with [new=False], the only way the index code builds a
    note. *)
Definition Note_init (title : str) : result Note :=
  let t := strip title in
  if negb (_is_valid_title t) then Raise InvalidTitleError
  else Ok {| _title := t; subdirs := [] |}.

Definition set_subdirs (n : Note) (s : str) : Note :=
  {| _title := _title n; subdirs := s |}.

(** [Note.filename] and [Note.title] *)
Definition Note_filename (n : Note) : str := _title n ++ MARKDOWN_EXT.
Definition Note_title (n : Note) : str := _title n.

(** [Note.filepath]: the loop over the markdown files below [dir]. *)
Definition filepath_loop (filename : str) (dirlist : list str) : str :=
  fold_left (fun filepath file =>
               if contains filename file then file else filepath)
            dirlist [].

Definition Note_filepath (fs : FS) (dir : str) (n : Note) : str :=
  filepath_loop (Note_filename n) (glob_md dir fs).

(** [Note.last_modified] and [Note.content] *)
Definition Note_last_modified (fs : FS) (dir : str) (n : Note) : result Z :=
  getmtime fs (Note_filepath fs dir n).

Definition Note_content (fs : FS) (dir : str) (n : Note) : result str :=
  read_file fs (Note_filepath fs dir n).

(* ================================================================== *)
(** ** The Whoosh index

    [IndexSchema] declares [filename] as the unique key.  A writer sees the
    documents that were committed when it was opened: [delete_by_term] and
    the deletion that [update_document] does for a unique field remove
    documents from those, and never a document the same writer has added
    (Whoosh documents this for [update_document]: it replaces a committed
    document only).  [commit] keeps the remaining committed documents,
    unless the merge type is [CLEAR], and appends the added ones. *)

Record Doc : Type := mkDoc {
  filename : str;
  last_modified : Z;
  title : str;
  content : str;
  tags : str
}.

Definition Index := list Doc.

Record Writer : Type := mkWriter {
  segments : list Doc;
  added : list Doc;
  mergetype_clear : bool
}.

(** [index.writer()] *)
Definition writer (idx : Index) : Writer :=
  {| segments := idx; added := []; mergetype_clear := false |}.

Definition set_clear (w : Writer) : Writer :=
  {| segments := segments w; added := added w; mergetype_clear := true |}.

(** [writer.delete_by_term("filename", text)] *)
Definition delete_by_term (text : str) (w : Writer) : Writer :=
  {| segments := filter (fun d => negb (str_eqb (filename d) text)) (segments w);
     added := added w;
     mergetype_clear := mergetype_clear w |}.

(** [writer.add_document] *)
Definition add_document (d : Doc) (w : Writer) : Writer :=
  {| segments := segments w;
     added := added w ++ [d];
     mergetype_clear := mergetype_clear w |}.

(** [writer.update_document] *)
Definition update_document (d : Doc) (w : Writer) : Writer :=
  add_document d (delete_by_term (filename d) w).

(** [writer.commit()] *)
Definition commit (w : Writer) : Index :=
  (if mergetype_clear w then [] else segments w) ++ added w.

(* ================================================================== *)
(** ** class [Flatnotes]: synchronisation *)

Record Flatnotes : Type := mkFlatnotes {
  dir : str;
  index : Index
}.

(** [indexed.add(x)] on a set. *)
Definition set_add (x : str) (s : list str) : list str :=
  if str_in x s then s else s ++ [x].

Section Synchronise.

Variable fs : FS.
Variable self : Flatnotes.

(** [Flatnotes._add_note_to_index] *)
Definition _add_note_to_index (w : Writer) (note : Note) : result Writer :=
  c <- Note_content fs (dir self) note ;;
  r <- extract_tags c ;;
  let (content_ex_tags, tag_set) := r in
  let tag_string := join (lit " ") tag_set in
  m <- Note_last_modified fs (dir self) note ;;
  Ok (update_document
        {| filename := Note_filename note;
           last_modified := m;
           title := Note_title note;
           content := content_ex_tags;
           tags := tag_string |} w).

(** [Flatnotes._get_notes] *)
Fixpoint _get_notes_loop (paths : list str) : result (list Note) :=
  match paths with
  | [] => Ok []
  | filepath :: rest =>
      let name := strip_ext (basename filepath) in
      note <- Note_init name ;;
      let subdirs := relpath (dirname filepath) (dir self) in
      notes <- _get_notes_loop rest ;;
      Ok (set_subdirs note subdirs :: notes)
  end.

Definition _get_notes : result (list Note) :=
  _get_notes_loop (glob_md (dir self) fs).

(** [Flatnotes.update_index]: the loop over the stored fields of the
    committed documents ... *)
Fixpoint update_index_existing (docs : list Doc) (w : Writer)
    (indexed : list str) : result (Writer * list str) :=
  match docs with
  | [] => Ok (w, indexed)
  | idx_note :: rest =>
      let idx_filename := filename idx_note in
      let idx_filepath := path_join (dir self) idx_filename in
      if negb (path_exists fs idx_filepath) then
        update_index_existing rest (delete_by_term idx_filename w) indexed
      else
        m <- getmtime fs idx_filepath ;;
        if negb (m =? last_modified idx_note)%Z then
          note <- Note_init (strip_ext idx_filename) ;;
          w' <- _add_note_to_index w note ;;
          update_index_existing rest w' (set_add idx_filename indexed)
        else
          update_index_existing rest w (set_add idx_filename indexed)
  end.

(** ... and the loop over the notes of the directory. *)
Fixpoint update_index_new (notes : list Note) (indexed : list str)
    (w : Writer) : result Writer :=
  match notes with
  | [] => Ok w
  | note :: rest =>
      if negb (str_in (Note_filename note) indexed) then
        w' <- _add_note_to_index w note ;;
        update_index_new rest indexed w'
      else update_index_new rest indexed w
  end.

Definition update_index (clean : bool) : result Index :=
  let w := writer (index self) in
  let w := if clean then set_clear w else w in
  r <- update_index_existing (index self) w [] ;;
  let (w, indexed) := r in
  notes <- _get_notes ;;
  w <- update_index_new notes indexed w ;;
  Ok (commit w).

End Synchronise.

(* ================================================================== *)
(** ** Searching *)

(** The values [hit.score] can hold.  A relevance score is a float; only
    the order of the scores matters here, so a float is given by its rank
    in that order. *)
Inductive pyval : Type :=
| PyFloat (x : Z)
| PyInt (n : Z)
| PyText (s : str).

Fixpoint str_compare (a b : str) : comparison :=
  match a, b with
  | [], [] => Eq
  | [], _ :: _ => Lt
  | _ :: _, [] => Gt
  | x :: a', y :: b' =>
      match Nat.compare (code x) (code y) with
      | Eq => str_compare a' b'
      | c => c
      end
  end.

(** The order of two sort keys.  The keys of one search have one type; keys
    of different types are ordered by type to keep the order total. *)
Definition py_compare (a b : pyval) : comparison :=
  match a, b with
  | PyFloat x, PyFloat y => Z.compare x y
  | PyInt x, PyInt y => Z.compare x y
  | PyText x, PyText y => str_compare x y
  | PyFloat _, _ => Lt
  | _, PyFloat _ => Gt
  | PyInt _, _ => Lt
  | _, PyInt _ => Gt
  end.

(** [(k1, n1) <= (k2, n2)] on tuples of a key and a document number. *)
Definition tuple_leb (x y : pyval * nat) : bool :=
  match py_compare (fst x) (fst y) with
  | Lt => true
  | Eq => snd x <=? snd y
  | Gt => false
  end.

Section ListSort.

Variable T : Type.
Variable key : T -> pyval * nat.

Fixpoint insert (x : T) (l : list T) : list T :=
  match l with
  | [] => [x]
  | y :: l' => if tuple_leb (key x) (key y) then x :: l else y :: insert x l'
  end.

(** A stable sort by [key]. *)
Definition stable_sort (l : list T) : list T := fold_right insert [] l.

(** [l.sort(key=key, reverse=reverse)]: a reverse sort reverses the
    list, sorts it and reverses the result. *)
Definition list_sort (reverse : bool) (l : list T) : list T :=
  if reverse then rev (stable_sort (rev l)) else stable_sort l.

End ListSort.

Inductive fragmenter : Type := WholeFragmenter | ContextFragmenter.

Fixpoint mapM {A B : Type} (f : A -> result B) (l : list A) : result (list B) :=
  match l with
  | [] => Ok []
  | x :: l' => y <- f x ;; ys <- mapM f l' ;; Ok (y :: ys)
  end.

Section Search.

(** What Whoosh computes from the text of a query: the parsed query, the
    documents it matches, their relevance scores, the terms that matched
    and the highlighted excerpts. *)
Variable Query : Type.
Variable parse : str -> result Query.

Inductive query : Type :=
| Every
| Parsed (q : Query).

Variable matches : Query -> Doc -> bool.
Variable score : query -> Doc -> Z.
Variable matched_terms : query -> Doc -> list (str * str).
Variable highlights : fragmenter -> query -> Doc -> str -> str -> str.

Definition query_matches (q : query) (d : Doc) : bool :=
  match q with
  | Every => true
  | Parsed q' => matches q' d
  end.

Record Hit : Type := mkHit {
  hit_docnum : nat;
  hit_fields : Doc;
  hit_score : pyval;
  hit_query : query
}.

(** The value a collected document is sorted by, and presented as
    [hit.score]: the score, or the value of the field sorted by. *)
Definition sort_value (q : query) (sortedby : option str) (d : Doc)
    : result pyval :=
  match sortedby with
  | None => Ok (PyFloat (score q d))
  | Some f =>
      if str_eqb f (lit "title") then Ok (PyText (title d))
      else if str_eqb f (lit "last_modified") then Ok (PyInt (last_modified d))
      else Raise ValueError
  end.

(** The key the collector sorts by: [(0 - score, docnum)] for a search
    by score, [(value, docnum)] for a search sorted by a field. *)
Definition sort_key (h : Hit) : pyval * nat :=
  match hit_score h with
  | PyFloat x => (PyFloat (0 - x), hit_docnum h)
  | v => (v, hit_docnum h)
  end.

Fixpoint collect (q : query) (sortedby : option str) (docnum : nat)
    (docs : list Doc) : result (list Hit) :=
  match docs with
  | [] => Ok []
  | d :: rest =>
      if query_matches q d then
        v <- sort_value q sortedby d ;;
        hs <- collect q sortedby (S docnum) rest ;;
        Ok (mkHit docnum d v q :: hs)
      else collect q sortedby (S docnum) rest
  end.

(** [searcher.search(query, sortedby=, reverse=, limit=, terms=True)] *)
Definition searcher_search (idx : Index) (q : query)
    (sortedby : option str) (reverse : bool) (limit : option nat)
    : result (list Hit) :=
  match limit with
  | Some 0 => Raise ValueError
  | _ =>
      items <- collect q sortedby 0 idx ;;
      let items := list_sort sort_key reverse items in
      Ok (match limit with
          | Some n => firstn n items
          | None => items
          end)
  end.

(** class [SearchResult] *)
Record SearchResult : Type := mkSearchResult {
  sr_note : Note;
  _matched_fields : list str;
  _score : option Z;
  _title_highlights : option str;
  _content_highlights : option str;
  _tag_matches : option (list str)
}.

(** [SearchResult._get_matched_fields] *)
Definition _get_matched_fields (terms : list (str * str)) : list str :=
  set_of (map fst terms).

Variable fs : FS.
Variable self : Flatnotes.

(** [SearchResult.__init__] *)
Definition SearchResult_init (hit : Hit) : result SearchResult :=
  note <- Note_init (strip_ext (filename (hit_fields hit))) ;;
  let terms := matched_terms (hit_query hit) (hit_fields hit) in
  let matched_fields := _get_matched_fields terms in
  let score := match hit_score hit with
               | PyFloat x => Some x
               | _ => None
               end in
  let title_highlights :=
    if str_in (lit "title") matched_fields
    then Some (highlights WholeFragmenter (hit_query hit) (hit_fields hit)
                          (lit "title") (Note_title note))
    else None in
  content_highlights <-
    (if str_in (lit "content") matched_fields then
       c <- Note_content fs (dir self) note ;;
       r <- extract_tags c ;;
       Ok (Some (highlights ContextFragmenter (hit_query hit)
                            (hit_fields hit) (lit "content") (fst r)))
     else Ok None) ;;
  let tag_matches :=
    if str_in (lit "tags") matched_fields
    then Some (map snd (filter (fun field => str_eqb (fst field) (lit "tags"))
                               terms))
    else None in
  Ok {| sr_note := note;
        _matched_fields := matched_fields;
        _score := score;
        _title_highlights := title_highlights;
        _content_highlights := content_highlights;
        _tag_matches := tag_matches |}.

(** [SearchResult.score] *)
Definition SearchResult_score (r : SearchResult) : option Z := _score r.

(** [Flatnotes.search]: the sort field and the direction handed to
    Whoosh. *)
Definition search_sortedby (sort : str) : option str :=
  if str_in sort [lit "title"; lit "last_modified"] then Some sort else None.

Definition search_reverse (sort order : str) : bool :=
  let reverse := str_eqb order (lit "desc") in
  match search_sortedby sort with
  | None => negb reverse
  | Some _ => reverse
  end.

(** [Flatnotes.search]; the result carries the index the search was run
    on, as [update_index] left it. *)
Definition search (term sort order : str) (limit : option nat)
    : result (Index * list SearchResult) :=
  idx <- update_index fs self false ;;
  let term := pre_process_search_term term in
  q <- (if str_eqb term (lit "*") then Ok Every
        else p <- parse term ;; Ok (Parsed p)) ;;
  results <- searcher_search idx q (search_sortedby sort)
               (search_reverse sort order) limit ;;
  rs <- mapM SearchResult_init results ;;
  Ok (idx, rs).

End Search.

(* ------------------------------------------------------------------ *)
(** *** [Flatnotes.get_tags] *)

(** [s.split()] *)
Fixpoint words_from (cur : str) (s : str) : list str :=
  match s with
  | [] => match cur with [] => [] | _ :: _ => [rev cur] end
  | c :: s' =>
      if is_space c
      then match cur with
           | [] => words_from [] s'
           | _ :: _ => rev cur :: words_from [] s'
           end
      else words_from (c :: cur) s'
  end.

Definition words (s : str) : list str := words_from [] s.

(** [reader.field_terms("tags")]: the terms of the lower-cased keyword
    field. *)
Definition field_terms_tags (idx : Index) : list str :=
  set_of (flat_map (fun d => words (lower (tags d))) idx).

(** The methods of [Flatnotes] that synchronise the index, by name.  The
    class body defines [update_index] and no other one: it has no base
    class, and neither it nor [__init__] binds [update_index_debounced]. *)
Definition Flatnotes_sync_methods
    : list (str * (FS -> Flatnotes -> bool -> result Index)) :=
  [ (lit "update_index", update_index) ].

(** [getattr(self, name)] for such a method. *)
Definition Flatnotes_getattr (name : str)
    : result (FS -> Flatnotes -> bool -> result Index) :=
  match find (fun m => str_eqb (fst m) name) Flatnotes_sync_methods with
  | Some m => Ok (snd m)
  | None => Raise AttributeError
  end.

(** [Flatnotes.get_tags]; the result carries the index as the
    synchronisation left it. *)
Definition get_tags (fs : FS) (self : Flatnotes) : result (Index * list str) :=
  update_index_debounced <- Flatnotes_getattr (lit "update_index_debounced") ;;
  idx <- update_index_debounced fs self false ;;
  let tags := field_terms_tags idx in
  Ok (idx, tags).

(* ================================================================== *)
(** * Notions used to state the properties *)

(** ** Cursors, boundaries and tokens *)

(** The cursor has a [#] behind it that starts the string or follows
    white space. *)
Definition hash_at_boundary (b : str) : bool :=
  match b with
  | [x] => Ascii.eqb x "#"
  | x :: y :: _ => Ascii.eqb x "#" && is_space y
  | [] => false
  end.

(** The cursor is at the start of the string or behind white space. *)
Definition boundary_before (b : str) : bool :=
  match b with
  | [] => true
  | x :: _ => is_space x
  end.

(** The cursor is at the end of the string or before white space. *)
Definition boundary_after (a : str) : bool :=
  match a with
  | [] => true
  | x :: _ => is_space x
  end.

(** The longest prefix of characters of a class, and the rest. *)
Fixpoint span (p : ascii -> bool) (a : str) : str * str :=
  match a with
  | x :: a' => if p x then (x :: fst (span p a'), snd (span p a')) else ([], a)
  | [] => ([], [])
  end.

Definition nonspace (c : ascii) : bool := negb (is_space c).

(** *** The boundary rule of the Tag Extractor, in the words of the
    specification: word characters right behind a [#] that starts the
    string or follows white space, followed by white space or the end. *)
Definition tag_token_in (content : str) : Prop :=
  exists pre name post,
    content = pre ++ "#"%char :: name ++ post /\
    name <> [] /\
    forallb is_word name = true /\
    boundary_before (rev pre) = true /\
    boundary_after post = true.

(** *** The rewriting of a search term, in the words of the specification:
    the term is cut at its white space into tokens, and a token that is a
    [#] followed by one or more word characters becomes [tags:<name>];
    every other token and the white space stay as they are. *)
Definition is_hashtag (tok : str) : bool :=
  match tok with
  | x :: name =>
      Ascii.eqb x "#" && negb (is_empty name) && forallb is_word name
  | [] => false
  end.

Definition rewrite_token (tok : str) : str :=
  if is_hashtag tok then lit "tags:" ++ tl tok else tok.

(** [tok] holds the characters of the current token read so far, the last
    one first. *)
Fixpoint rewrite_tokens (tok : str) (s : str) : str :=
  match s with
  | [] => rewrite_token (rev tok)
  | c :: s' =>
      if is_space c
      then rewrite_token (rev tok) ++ c :: rewrite_tokens [] s'
      else rewrite_tokens (c :: tok) s'
  end.

Definition tag_filter (tag : str) : str := lit "tags:" ++ tl tag.

Definition sub_out (b a : str) : str :=
  flat_map (fun p => match p with Keep c => [c] | Found m => tag_filter m end)
           (pieces TAGS_WITH_HASH_RE b a 0).

(** A string that neither starts nor ends with white space. *)
Definition no_outer_space (s : str) : Prop :=
  match s with [] => True | x :: _ => is_space x = false end /\
  match rev s with [] => True | x :: _ => is_space x = false end.

Fixpoint matches_somewhere (r : regex) (b a : str) : bool :=
  match match_at r b a with
  | Some _ => true
  | None =>
      match a with
      | [] => false
      | x :: a' => matches_somewhere r (x :: b) a'
      end
  end.

(** ** Orders *)

(** The order a list of items is sorted in: by the key tuples. *)
Definition key_le {T : Type} (key : T -> pyval * nat) (x y : T) : Prop :=
  tuple_leb (key x) (key y) = true.

(** The relevance score of the first result is at least that of the
    second. *)
Definition score_ge (r1 r2 : SearchResult) : Prop :=
  match SearchResult_score r1, SearchResult_score r2 with
  | Some x, Some y => (y <= x)%Z
  | _, _ => False
  end.

(** ** Keys of the notes and state of the entries *)

(** The file name of the note that [_get_notes] builds for a path. *)
Definition key_of_path (p : str) : str :=
  strip (strip_ext (basename p)) ++ MARKDOWN_EXT.

(** The file names of the notes of the directory, one per note file. *)
Definition note_keys (fs : FS) (dir : str) : list str :=
  map key_of_path (glob_md dir fs).

(** The file of an entry, looked up right below the notes directory,
    exists; it exists with the recorded modification time ([fresh]); it
    exists with another one ([stale]). *)
Definition on_disk (fs : FS) (self : Flatnotes) (d : Doc) : bool :=
  path_exists fs (path_join (dir self) (filename d)).

Definition unchanged (fs : FS) (self : Flatnotes) (d : Doc) : bool :=
  match getmtime fs (path_join (dir self) (filename d)) with
  | Ok m => (m =? last_modified d)%Z
  | Raise _ => false
  end.

Definition fresh (fs : FS) (self : Flatnotes) (d : Doc) : bool :=
  on_disk fs self d && unchanged fs self d.

Definition stale (fs : FS) (self : Flatnotes) (d : Doc) : bool :=
  on_disk fs self d && negb (unchanged fs self d).

Fixpoint all_distinct (l : list str) : bool :=
  match l with
  | [] => true
  | x :: l' => negb (str_in x l') && all_distinct l'
  end.

Definition entries_are_notes_b (fs : FS) (self : Flatnotes) : bool :=
  forallb (fun d => implb (on_disk fs self d)
                          (str_in (filename d) (note_keys fs (dir self))))
          (index self).

(** ** Sample note stores and indexes *)

Definition fs_a_data : FS :=
  [ mkFile (lit "notes/a.md") 5 (lit "alpha");
    mkFile (lit "notes/sub/data.md") 7 (lit "delta") ].

Definition fs_a_old : FS :=
  [ mkFile (lit "notes/a.md") 1 (lit "old") ].

Definition idx_a_old : Index :=
  [ mkDoc (lit "a.md") 1 (lit "a") (lit "old") [] ].

Definition fs_a : FS :=
  [ mkFile (lit "notes/a.md") 5 (lit "alpha") ].

Definition fs_a_twice : FS :=
  [ mkFile (lit "notes/a.md") 5 (lit "alpha");
    mkFile (lit "notes/sub/a.md") 6 (lit "second") ].

Definition idx_a : Index :=
  [ mkDoc (lit "a.md") 5 (lit "a") (lit "alpha") [] ].

Definition fs_three : FS :=
  [ mkFile (lit "notes/a.md") 5 (lit "alpha #x");
    mkFile (lit "notes/c.md") 9 (lit "gamma #new");
    mkFile (lit "notes/sub/b.md") 6 (lit "beta");
    mkFile (lit "notes/.flatnotes/_MAIN_3.toc") 1 [] ].

Definition idx_before : Index :=
  [ mkDoc (lit "a.md") 5 (lit "a") (lit "alpha #") (lit "x");
    mkDoc (lit "c.md") 2 (lit "c") (lit "gamma") [];
    mkDoc (lit "z.md") 1 (lit "z") (lit "zeta") [] ].

Definition idx_after : Index :=
  [ mkDoc (lit "a.md") 5 (lit "a") (lit "alpha #") (lit "x");
    mkDoc (lit "c.md") 9 (lit "c") (lit "gamma #") (lit "new");
    mkDoc (lit "b.md") 6 (lit "b") (lit "beta") [] ].

Definition notes_three : Flatnotes := mkFlatnotes (lit "notes") idx_before.

Definition fs_a_in_two_dirs : FS :=
  [ mkFile (lit "notes/x/a.md") 5 (lit "one");
    mkFile (lit "notes/y/a.md") 6 (lit "two") ].

Definition note_c : Note := {| _title := lit "c"; subdirs := [] |}.

Definition writer_c : Writer :=
  update_document (mkDoc (lit "c.md") 9 (lit "c") (lit "gamma #") (lit "new"))
                  (writer idx_before).

(** ** A search engine to run the searches on

    A query is a word, it matches the entries whose content holds the
    word, every match is reported in the content field, the score of an
    entry is the length of its content, and the excerpt is the whole
    text. *)

Definition demo_parse (term : str) : result str := Ok term.

Definition demo_matches (q : str) (d : Doc) : bool := contains q (content d).

Definition demo_score (q : query str) (d : Doc) : Z :=
  Z.of_nat (List.length (content d)).

Definition demo_terms (q : query str) (d : Doc) : list (str * str) :=
  match q with
  | Every _ => []
  | Parsed w => [(lit "content", w)]
  end.

Definition demo_highlights (f : fragmenter) (q : query str) (d : Doc)
    (field text : str) : str := text.

Definition demo_search :=
  search demo_parse demo_matches demo_score demo_terms demo_highlights
         fs_three notes_three.

Definition result_of (n : str) (sc : option Z) : SearchResult :=
  {| sr_note := {| _title := n; subdirs := [] |};
     _matched_fields := [];
     _score := sc;
     _title_highlights := None;
     _content_highlights := None;
     _tag_matches := None |}.

Definition by_title : list SearchResult :=
  [ result_of (lit "a") None; result_of (lit "b") None; result_of (lit "c") None ].

Definition by_score : list SearchResult :=
  [ result_of (lit "a") (Some 7%Z); result_of (lit "c") (Some 7%Z);
    result_of (lit "b") (Some 4%Z) ].

Definition gamma_by_title : list SearchResult :=
  [ {| sr_note := {| _title := lit "c"; subdirs := [] |};
       _matched_fields := [lit "content"];
       _score := None;
       _title_highlights := None;
       _content_highlights := Some (lit "gamma #");
       _tag_matches := None |} ].

Definition gamma_by_score : list SearchResult :=
  [ {| sr_note := {| _title := lit "c"; subdirs := [] |};
       _matched_fields := [lit "content"];
       _score := Some 7%Z;
       _title_highlights := None;
       _content_highlights := Some (lit "gamma #");
       _tag_matches := None |} ].

(* ================================================================== *)
(** * More of the source

    The operations of [Note] that change the note store, the opening of a
    notes directory, and the notions their properties are stated with. *)

(** ** Writing, removing and renaming files

    The directory a file is written or moved to exists: the source builds
    these paths from the notes directory and from the directories of the
    files it has found, and never removes a directory. *)

(** [open(p, "w")], [write(c)] and [close()] at the time [now]. *)
Definition write_file (fs : FS) (p : str) (now : Z) (c : str) : result FS :=
  if path_exists fs p then
    Ok (map (fun f => if str_eqb (f_path f) p then mkFile p now c else f) fs)
  else if is_empty p then Raise FileNotFoundError
  else Ok (fs ++ [mkFile p now c]).

(** [os.remove(p)] *)
Definition os_remove (fs : FS) (p : str) : result FS :=
  if path_exists fs p
  then Ok (filter (fun f => negb (str_eqb (f_path f) p)) fs)
  else Raise FileNotFoundError.

(** [os.rename(src, dst)]: a file at [dst] is replaced. *)
Definition os_rename (fs : FS) (src dst : str) : result FS :=
  if negb (path_exists fs src) then Raise FileNotFoundError
  else if str_eqb src dst then Ok fs
  else Ok (map (fun f => if str_eqb (f_path f) src
                         then mkFile dst (f_mtime f) (f_content f) else f)
               (filter (fun f => negb (str_eqb (f_path f) dst)) fs)).

(** ** class [Note], continued *)

(** What [Note.__init__] with [new=True] can raise besides the exceptions
    of the index code. *)
Inductive init_error : Type :=
| Raised (e : exn)
| FileExistsError.

Inductive created : Type :=
| Created (n : Note) (fs : FS)
| NotCreated (e : init_error).

(** [Note.__init__] with [new=True], at the time [now]. *)
Definition Note_init_new (fs : FS) (dir : str) (title : str) (now : Z) : created :=
  let t := strip title in
  if negb (_is_valid_title t) then NotCreated (Raised InvalidTitleError)
  else
    let n := {| _title := t; subdirs := [] |} in
    if path_exists fs (Note_filepath fs dir n) then NotCreated FileExistsError
    else match write_file fs (Note_filepath fs dir n) now [] with
         | Ok fs' => Created n fs'
         | Raise e => NotCreated (Raised e)
         end.

(** The setter of [Note.title] *)
Definition Note_set_title (fs : FS) (dir : str) (n : Note) (new_title : str)
    : result (Note * FS) :=
  let new_title := strip new_title in
  if negb (_is_valid_title new_title) then Raise InvalidTitleError
  else
    let new_filepath :=
      path_join (path_join dir (subdirs n)) (new_title ++ MARKDOWN_EXT) in
    fs' <- os_rename fs (Note_filepath fs dir n) new_filepath ;;
    Ok ({| _title := new_title; subdirs := subdirs n |}, fs').

(** The setter of [Note.content], at the time [now]. *)
Definition Note_set_content (fs : FS) (dir : str) (n : Note) (now : Z)
    (new_content : str) : result FS :=
  if negb (path_exists fs (Note_filepath fs dir n)) then Raise FileNotFoundError
  else write_file fs (Note_filepath fs dir n) now new_content.

(** [Note.delete] *)
Definition Note_delete (fs : FS) (dir : str) (n : Note) : result FS :=
  os_remove fs (Note_filepath fs dir n).

(** ** Opening a notes directory: [Flatnotes.__init__] and [_load_index]

    A disk holds the note files, the directories that exist, and for each
    index directory the indexes stored in it, by index name. *)

Definition INDEX_SCHEMA_VERSION : str := lit "3".

Record Disk : Type := mkDisk {
  files : FS;
  directories : list str;
  indexes : list (str * list (str * Index))
}.

Fixpoint assoc_get {V : Type} (k : str) (l : list (str * V)) : option V :=
  match l with
  | [] => None
  | (k', v) :: l' => if str_eqb k' k then Some v else assoc_get k l'
  end.

Fixpoint assoc_set {V : Type} (k : str) (v : V) (l : list (str * V))
    : list (str * V) :=
  match l with
  | [] => [(k, v)]
  | (k', v') :: l' =>
      if str_eqb k' k then (k, v) :: l' else (k', v') :: assoc_set k v l'
  end.

(** The names and indexes stored in a directory. *)
Definition stored_in (disk : Disk) (d : str) : list (str * Index) :=
  match assoc_get d (indexes disk) with
  | Some toc => toc
  | None => []
  end.

(** [Flatnotes.index_dir] *)
Definition index_dir (dir : str) : str := path_join dir (lit ".flatnotes").

(** [os.path.exists(d)] for a directory *)
Definition dir_exists (disk : Disk) (d : str) : bool := str_in d (directories disk).

(** [whoosh.index.exists_in(d, indexname=name)] *)
Definition exists_in (disk : Disk) (d name : str) : bool :=
  match assoc_get name (stored_in disk d) with
  | Some _ => true
  | None => false
  end.

(** [whoosh.index.create_in(d, IndexSchema, indexname=name)]: a new, empty
    index under that name. *)
Definition create_in (disk : Disk) (d name : str) : Disk :=
  {| files := files disk;
     directories := directories disk;
     indexes := assoc_set d (assoc_set name [] (stored_in disk d)) (indexes disk) |}.

(** Modelled from the spec: [helpers.empty_dir] is imported by the source
    but is not part of it.  The specification of the storage layout gives
    its effect: the contents of the index directory are deleted. *)
Definition empty_dir (disk : Disk) (d : str) : Disk :=
  {| files := files disk;
     directories := directories disk;
     indexes := assoc_set d [] (indexes disk) |}.

(** [os.mkdir(d)] *)
Definition mkdir (disk : Disk) (d : str) : Disk :=
  {| files := files disk;
     directories := directories disk ++ [d];
     indexes := indexes disk |}.

(** [writer.commit()] seen from the disk: the index named [name] in [d]
    becomes [idx]. *)
Definition store_index (disk : Disk) (d name : str) (idx : Index) : Disk :=
  {| files := files disk;
     directories := directories disk;
     indexes := assoc_set d (assoc_set name idx (stored_in disk d)) (indexes disk) |}.

(** [Flatnotes._load_index] *)
Definition _load_index (disk : Disk) (dir : str) : Index * Disk :=
  let index_dir_exists := dir_exists disk (index_dir dir) in
  if index_dir_exists && exists_in disk (index_dir dir) INDEX_SCHEMA_VERSION then
    (match assoc_get INDEX_SCHEMA_VERSION (stored_in disk (index_dir dir)) with
     | Some idx => idx
     | None => []
     end, disk)
  else
    let disk := if index_dir_exists then empty_dir disk (index_dir dir)
                else mkdir disk (index_dir dir) in
    ([], create_in disk (index_dir dir) INDEX_SCHEMA_VERSION).

Inductive opened : Type :=
| Opened (self : Flatnotes) (disk : Disk)
| NotADirectoryError
| OpenRaised (e : exn).

(** [Flatnotes.__init__] *)
Definition Flatnotes_init (disk : Disk) (dir : str) : opened :=
  if negb (dir_exists disk dir) then NotADirectoryError
  else
    let (idx, disk) := _load_index disk dir in
    match update_index (files disk) (mkFlatnotes dir idx) false with
    | Ok idx' =>
        Opened (mkFlatnotes dir idx')
               (store_index disk (index_dir dir) INDEX_SCHEMA_VERSION idx')
    | Raise e => OpenRaised e
    end.

(** ** Notions used to state the properties of this part *)

(** The part of a file name before its extension, as [_get_notes] takes
    it from a path. *)
Definition stem (p : str) : str := strip_ext (basename p).

(** What keeps every character that is not a word character. *)
Definition nonword (c : ascii) : bool := negb (is_word c).

(** ** More sample data for the searches *)

(** The results of the search for [a] on the sample engine, by title. *)
Definition by_title_a : list SearchResult :=
  map (fun n => {| sr_note := {| _title := n; subdirs := [] |};
                   _matched_fields := [lit "content"];
                   _score := None;
                   _title_highlights := None;
                   _content_highlights :=
                     Some (if str_eqb n (lit "b") then lit "beta"
                           else if str_eqb n (lit "a") then lit "alpha #"
                           else lit "gamma #");
                   _tag_matches := None |})
      [lit "a"; lit "b"; lit "c"].

Definition gamma_hit_result : SearchResult :=
  {| sr_note := {| _title := lit "c"; subdirs := [] |};
     _matched_fields := [lit "content"];
     _score := Some 7%Z;
     _title_highlights := None;
     _content_highlights := Some (lit "gamma #");
     _tag_matches := None |}.

(** Every note file of the directory has a name whose part before the
    extension is a valid title with no white space around it. *)
Definition note_files_ok (fs : FS) (dir : str) : bool :=
  forallb (fun p => _is_valid_title (stem p) &&
                    str_eqb (strip (stem p)) (stem p))
          (glob_md dir fs).

(** A note store with a file whose name holds a [?]. *)
Definition fs_bad_name : FS :=
  [ mkFile (lit "notes/a.md") 5 (lit "alpha");
    mkFile (lit "notes/why?.md") 6 (lit "because") ].

(** A disk with the sample notes and an index of an older schema version,
    and the disk after the notes directory was opened. *)
Definition disk_old : Disk :=
  {| files := fs_a;
     directories := [lit "notes"; lit "notes/.flatnotes"];
     indexes := [(lit "notes/.flatnotes", [(lit "2", idx_a_old)])] |}.

Definition disk_opened : Disk :=
  {| files := fs_a;
     directories := [lit "notes"; lit "notes/.flatnotes"];
     indexes := [(lit "notes/.flatnotes", [(lit "3", idx_a)])] |}.

(** ** A text, token by token

    [map_tokens f sp [] s] cuts [s] at its white space and puts together
    what [f] gives for every token and what [sp] gives for every white
    space character; [tok] holds the characters of the current token read
    so far, the last one first. *)
Fixpoint map_tokens {B : Type} (f : str -> list B) (sp : ascii -> list B)
    (tok s : str) : list B :=
  match s with
  | [] => f (rev tok)
  | c :: s' =>
      if is_space c then f (rev tok) ++ sp c ++ map_tokens f sp [] s'
      else map_tokens f sp (c :: tok) s'
  end.

(** A token that is a [#] followed by word characters is cut down to the
    [#] and gives its name as a tag; any other token stays and gives no
    tag. *)
Definition strip_token (tok : str) : str :=
  if is_hashtag tok then ["#"%char] else tok.

Definition token_tag (tok : str) : list str :=
  if is_hashtag tok then [tl tok] else [].

Definition tag_pieces (tok : str) : list piece :=
  if is_hashtag tok then [Keep "#"; Found (tl tok)] else map Keep tok.

Definition strip_tokens (s : str) : str :=
  map_tokens strip_token (fun c => [c]) [] s.

Definition token_tags (s : str) : list str :=
  map_tokens token_tag (fun _ => []) [] s.

(* ================================================================== *)
(** * Properties *)

Unset Implicit Arguments.

(** ** Equality and membership of strings *)

Lemma str_eqb_eq (a b : str) : str_eqb a b = true <-> a = b.
Proof.
  unfold str_eqb. destruct (list_eq_dec ascii_dec a b); split; congruence.
Qed.

Lemma str_eqb_refl (a : str) : str_eqb a a = true.
Proof. now apply str_eqb_eq. Qed.

Lemma str_eqb_neq (a b : str) : str_eqb a b = false <-> a <> b.
Proof.
  unfold str_eqb. destruct (list_eq_dec ascii_dec a b); split; congruence.
Qed.

Lemma str_in_In (x : str) (l : list str) : str_in x l = true <-> In x l.
Proof.
  unfold str_in. rewrite existsb_exists. split.
  - intros [y [Hy He]]. apply str_eqb_eq in He. now subst.
  - intros H. exists x. split; [assumption | apply str_eqb_refl].
Qed.

Lemma str_in_not_In (x : str) (l : list str) : str_in x l = false <-> ~ In x l.
Proof.
  rewrite <- str_in_In. destruct (str_in x l); split; congruence.
Qed.

(** ** The two tag patterns *)

Lemma span_app (p : ascii -> bool) (a : str) :
  a = fst (span p a) ++ snd (span p a).
Proof.
  induction a as [|x a IH]; simpl; [reflexivity|].
  destruct (p x); simpl; [now rewrite <- IH | reflexivity].
Qed.

Lemma span_all (p : ascii -> bool) (a : str) :
  forallb p (fst (span p a)) = true.
Proof.
  induction a as [|x a IH]; simpl; [reflexivity|].
  destruct (p x) eqn:E; simpl; [now rewrite E | reflexivity].
Qed.

Lemma span_rest (p : ascii -> bool) (a : str) :
  match snd (span p a) with
  | [] => True
  | x :: _ => p x = false
  end.
Proof.
  induction a as [|x a IH]; simpl; [exact I|].
  destruct (p x) eqn:E; simpl; assumption.
Qed.

Lemma span_exact (p : ascii -> bool) (w rest : str) :
  forallb p w = true ->
  match rest with [] => True | x :: _ => p x = false end ->
  span p (w ++ rest) = (w, rest).
Proof.
  intros Hw Hr. induction w as [|x w IH]; simpl in *.
  - destruct rest as [|y rest]; simpl; [reflexivity | now rewrite Hr].
  - apply andb_true_iff in Hw as [Hx Hw]. rewrite Hx, (IH Hw). reflexivity.
Qed.

Lemma word_not_space (c : ascii) : is_word c = true -> is_space c = false.
Proof.
  destruct c as [[] [] [] [] [] [] [] []]; vm_compute; congruence.
Qed.

Lemma newline_is_space (c : ascii) : Ascii.eqb c "010" = true -> is_space c = true.
Proof.
  intros H. apply Ascii.eqb_eq in H. now subst.
Qed.

Lemma hash_not_space : is_space "#" = false.
Proof. reflexivity. Qed.

Lemma hash_not_word : is_word "#" = false.
Proof. reflexivity. Qed.

(** [(?=\s|$)] holds exactly before white space and at the end. *)
Lemma ahead_boundary {A : Type} (b a : str) (k : str -> str -> option A) :
  rmatch (Ahead (Alt (Class is_space) Eol)) b a k =
  if boundary_after a then k b a else None.
Proof.
  simpl. destruct a as [|x a]; simpl; [reflexivity|].
  destruct (is_space x) eqn:E; [reflexivity|].
  destruct a as [|y a]; [|reflexivity].
  destruct (Ascii.eqb x "010") eqn:E'; [|reflexivity].
  apply newline_is_space in E'. congruence.
Qed.

(** Giving characters back never helps [\w*(?=\s|$)]: the match is the
    whole run of word characters, or there is none. *)
Lemma star_word_boundary {A : Type} (a b : str) (k : str -> str -> option A) :
  star_loop is_word b a
    (fun b' a' => if boundary_after a' then k b' a' else None) =
  if boundary_after (snd (span is_word a))
  then k (rev (fst (span is_word a)) ++ b) (snd (span is_word a))
  else None.
Proof.
  revert b. induction a as [|x a IH]; intros b; simpl; [reflexivity|].
  destruct (is_word x) eqn:E; simpl.
  - rewrite IH. rewrite <- app_assoc. simpl.
    destruct (boundary_after (snd (span is_word a))).
    + destruct (k _ _); [reflexivity|].
      now rewrite (word_not_space _ E).
    + now rewrite (word_not_space _ E).
  - reflexivity.
Qed.

Lemma star_loop_ext {A : Type} (p : ascii -> bool) (k1 k2 : str -> str -> option A) :
  (forall b a, k1 b a = k2 b a) ->
  forall a b, star_loop p b a k1 = star_loop p b a k2.
Proof.
  intros H. induction a as [|x a IH]; intros b; simpl.
  - apply H.
  - rewrite IH, H. reflexivity.
Qed.

(** [\w+(?=\s|$)] *)
Lemma word_run_spec {A : Type} (a b : str) (k : str -> str -> option A) :
  rmatch (Cat (Plus is_word) (Ahead (Alt (Class is_space) Eol))) b a k =
  if negb (is_empty (fst (span is_word a))) &&
     boundary_after (snd (span is_word a))
  then k (rev (fst (span is_word a)) ++ b) (snd (span is_word a))
  else None.
Proof.
  cbn [rmatch]. destruct a as [|x a]; [reflexivity|].
  cbn [span]. destruct (is_word x) eqn:E; [|reflexivity].
  cbn [fst snd is_empty negb andb].
  rewrite (star_loop_ext is_word _ _
             (fun b' a' => ahead_boundary b' a' k)).
  rewrite star_word_boundary. cbn [rev]. rewrite <- app_assoc. reflexivity.
Qed.

Lemma rmatch_Cat {A : Type} (r1 r2 : regex) (b a : str) (k : str -> str -> option A) :
  rmatch (Cat r1 r2) b a k = rmatch r1 b a (fun b' a' => rmatch r2 b' a' k).
Proof. reflexivity. Qed.

Lemma rmatch_Alt {A : Type} (r1 r2 : regex) (b a : str) (k : str -> str -> option A) :
  rmatch (Alt r1 r2) b a k =
  match rmatch r1 b a k with Some v => Some v | None => rmatch r2 b a k end.
Proof. reflexivity. Qed.

Lemma rmatch_Cat_Lit {A : Type} (c : ascii) (r : regex) (b a : str)
    (k : str -> str -> option A) :
  rmatch (Cat (Lit c) r) b a k =
  match a with
  | x :: a' => if Ascii.eqb x c then rmatch r (x :: b) a' k else None
  | [] => None
  end.
Proof. reflexivity. Qed.

(** [(?:(?<=^#)|(?<=\s#))] *)
Lemma behind_hash {A : Type} (b a : str) (k : str -> str -> option A) :
  rmatch (Alt (Behind (Cat Bol (Lit "#")))
              (Behind (Cat (Class is_space) (Lit "#")))) b a k =
  if hash_at_boundary b then k b a else None.
Proof.
  rewrite rmatch_Alt.
  destruct b as [|x [|y b]]; cbn.
  - reflexivity.
  - rewrite Nat.eqb_refl.
    destruct (Ascii.eqb x "#"); cbn; [|reflexivity].
    destruct (k [x] a); reflexivity.
  - rewrite Nat.eqb_refl.
    destruct b as [|z b]; cbn;
      destruct (Ascii.eqb x "#"); cbn; rewrite ?andb_false_r; try reflexivity;
      destruct (is_space y); cbn; reflexivity.
Qed.

(** [(?:(?<=^)|(?<=\s))] *)
Lemma behind_boundary {A : Type} (b a : str) (k : str -> str -> option A) :
  rmatch (Alt (Behind Bol) (Behind (Class is_space))) b a k =
  if boundary_before b then k b a else None.
Proof.
  rewrite rmatch_Alt.
  destruct b as [|y b]; cbn.
  - rewrite Nat.eqb_refl. destruct (k [] a); reflexivity.
  - rewrite Nat.eqb_refl. destruct (is_space y); reflexivity.
Qed.

Lemma span_length (p : ascii -> bool) (a : str) :
  List.length a - List.length (snd (span p a)) = List.length (fst (span p a)).
Proof.
  rewrite (span_app p a) at 1. rewrite length_app. lia.
Qed.

(** Where [TAGS_RE] matches, and how much. *)
Lemma TAGS_RE_match_at (b a : str) :
  match_at TAGS_RE b a =
  if hash_at_boundary b &&
     negb (is_empty (fst (span is_word a))) &&
     boundary_after (snd (span is_word a))
  then Some (List.length (fst (span is_word a)))
  else None.
Proof.
  unfold match_at, TAGS_RE.
  rewrite rmatch_Cat, behind_hash.
  destruct (hash_at_boundary b); [|reflexivity].
  rewrite word_run_spec, span_length, andb_true_l. reflexivity.
Qed.

(** Where [TAGS_WITH_HASH_RE] matches, and how much. *)
Lemma TAGS_WITH_HASH_RE_match_at (b a : str) :
  match_at TAGS_WITH_HASH_RE b a =
  match a with
  | x :: a' =>
      if boundary_before b && Ascii.eqb x "#" &&
         negb (is_empty (fst (span is_word a'))) &&
         boundary_after (snd (span is_word a'))
      then Some (S (List.length (fst (span is_word a'))))
      else None
  | [] => None
  end.
Proof.
  unfold match_at, TAGS_WITH_HASH_RE.
  rewrite rmatch_Cat, behind_boundary.
  destruct (boundary_before b).
  - rewrite rmatch_Cat_Lit. destruct a as [|x a]; [reflexivity|].
    destruct (Ascii.eqb x "#"); [|reflexivity].
    rewrite word_run_spec. cbn [andb].
    destruct (negb (is_empty (fst (span is_word a))) &&
              boundary_after (snd (span is_word a))); [|reflexivity].
    f_equal. cbn [List.length]. rewrite <- span_length.
    pose proof (f_equal (@List.length ascii) (span_app is_word a)) as H.
    rewrite length_app in H. lia.
  - destruct a; reflexivity.
Qed.

(** *** Walking the subject *)

Lemma pieces_skip (r : regex) (w b rest : str) :
  pieces r b (w ++ rest) (List.length w) = pieces r (rev w ++ b) rest 0.
Proof.
  revert b. induction w as [|x w IH]; intros b; simpl.
  - destruct rest; reflexivity.
  - rewrite IH, <- app_assoc. reflexivity.
Qed.

(** Where the pattern matches nowhere, every character is kept. *)
Lemma pieces_keep (r : regex) (t b rest : str) :
  (forall pre suf, t = pre ++ suf -> suf <> [] ->
                   match_at r (rev pre ++ b) (suf ++ rest) = None) ->
  pieces r b (t ++ rest) 0 = map Keep t ++ pieces r (rev t ++ b) rest 0.
Proof.
  revert b. induction t as [|x t IH]; intros b H.
  - destruct rest; reflexivity.
  - simpl app at 1. cbn [pieces].
    pose proof (H [] (x :: t) eq_refl ltac:(discriminate)) as H0.
    simpl in H0. rewrite H0.
    cbn [map app]. f_equal.
    cbn [rev]. rewrite <- app_assoc. apply IH.
    intros pre suf E Hs.
    specialize (H (x :: pre) suf). cbn [rev] in H. rewrite <- app_assoc in H.
    apply H; [now rewrite E | assumption].
Qed.

Lemma flat_map_keep {B : Type} (f : piece -> list B) (g : ascii -> list B) (t : str) :
  (forall c, f (Keep c) = g c) ->
  flat_map f (map Keep t) = flat_map g t.
Proof.
  intros H. induction t as [|x t IH]; simpl; [reflexivity|].
  now rewrite H, IH.
Qed.

Lemma flat_map_single (t : str) : flat_map (fun c => [c]) t = t.
Proof. induction t as [|x t IH]; simpl; [reflexivity | now rewrite IH]. Qed.

Lemma flat_map_none {B : Type} (t : str) : flat_map (fun _ : ascii => @nil B) t = [].
Proof. induction t as [|x t IH]; simpl; [reflexivity | exact IH]. Qed.

Lemma hash_at_boundary_inv (b : str) :
  hash_at_boundary b = true ->
  exists b', b = "#"%char :: b' /\ boundary_before b' = true.
Proof.
  destruct b as [|x [|y b]]; simpl; intros H.
  - discriminate.
  - apply Ascii.eqb_eq in H. subst. now exists [].
  - apply andb_true_iff in H as [H1 H2]. apply Ascii.eqb_eq in H1. subst.
    now exists (y :: b).
Qed.

Lemma TAGS_RE_match_token (pre suf : str) (n : nat) :
  match_at TAGS_RE (rev pre) suf = Some n -> tag_token_in (pre ++ suf).
Proof.
  rewrite TAGS_RE_match_at.
  destruct (hash_at_boundary (rev pre)) eqn:Hb; [|discriminate].
  destruct (negb (is_empty (fst (span is_word suf)))) eqn:Hn; [|discriminate].
  destruct (boundary_after (snd (span is_word suf))) eqn:Ha; [|discriminate].
  intros _.
  apply hash_at_boundary_inv in Hb as [b' [Eb Hb']].
  assert (Epre : pre = rev b' ++ ["#"%char]).
  { rewrite <- (rev_involutive pre), Eb. reflexivity. }
  exists (rev b'), (fst (span is_word suf)), (snd (span is_word suf)).
  repeat split.
  - rewrite <- span_app, Epre, <- app_assoc. reflexivity.
  - destruct (fst (span is_word suf)); [discriminate | discriminate].
  - apply span_all.
  - now rewrite rev_involutive.
  - assumption.
Qed.

Lemma rewrite_tokens_unfold (a tok : str) :
  rewrite_tokens tok a =
  rewrite_token (rev tok ++ fst (span nonspace a)) ++
  match snd (span nonspace a) with
  | [] => []
  | c :: rest => c :: rewrite_tokens [] rest
  end.
Proof.
  revert tok. induction a as [|c a IH]; intros tok; simpl.
  - now rewrite !app_nil_r.
  - assert (Hn : nonspace c = negb (is_space c)) by reflexivity.
    rewrite !Hn. destruct (is_space c) eqn:E; simpl.
    + now rewrite app_nil_r.
    + rewrite IH. simpl. now rewrite <- app_assoc.
Qed.

Lemma nonspace_rest_boundary (a : str) : boundary_after (snd (span nonspace a)) = true.
Proof.
  pose proof (span_rest nonspace a) as H.
  destruct (snd (span nonspace a)) as [|x r]; [reflexivity|].
  simpl. unfold nonspace in H. now destruct (is_space x).
Qed.

Lemma word_all_nonspace (w : str) :
  forallb is_word w = true -> forallb nonspace w = true.
Proof.
  induction w as [|x w IH]; simpl; [reflexivity|].
  intros H. apply andb_true_iff in H as [H1 H2].
  unfold nonspace at 1. rewrite (word_not_space _ H1). simpl. auto.
Qed.

Lemma boundary_not_nonspace (r : str) :
  boundary_after r = true ->
  match r with [] => True | x :: _ => nonspace x = false end.
Proof.
  destruct r as [|x r]; simpl; [trivial|]. unfold nonspace. now intros ->.
Qed.

Lemma boundary_not_word (r : str) :
  boundary_after r = true ->
  match r with [] => True | x :: _ => is_word x = false end.
Proof.
  destruct r as [|x r]; simpl; [trivial|]. intros H.
  destruct (is_word x) eqn:E; [|reflexivity].
  apply word_not_space in E. congruence.
Qed.

(** At a boundary, the pattern matches exactly the hashtag tokens. *)
Lemma hashtag_match (b t rest : str) :
  boundary_before b = true ->
  forallb nonspace t = true ->
  boundary_after rest = true ->
  match_at TAGS_WITH_HASH_RE b (t ++ rest) =
  if is_hashtag t then Some (List.length t) else None.
Proof.
  intros Hb Ht Hr. rewrite TAGS_WITH_HASH_RE_match_at, Hb.
  destruct t as [|x t]; simpl.
  - destruct rest as [|c rest]; [reflexivity|].
    simpl in Hr. destruct (Ascii.eqb c "#") eqn:E; [|reflexivity].
    apply Ascii.eqb_eq in E. subst. discriminate.
  - destruct (Ascii.eqb x "#"); [|reflexivity]. simpl.
    simpl in Ht. apply andb_true_iff in Ht as [_ Ht].
    destruct (forallb is_word t) eqn:Hw.
    + rewrite (span_exact is_word t rest Hw (boundary_not_word _ Hr)).
      simpl. rewrite Hr, !andb_true_r.
      destruct t; reflexivity.
    + rewrite andb_false_r.
      destruct (negb (is_empty (fst (span is_word (t ++ rest)))) &&
                boundary_after (snd (span is_word (t ++ rest)))) eqn:C;
        [|reflexivity].
      exfalso. apply andb_true_iff in C as [_ C].
      pose proof (span_exact nonspace t rest Ht (boundary_not_nonspace _ Hr)) as E1.
      pose proof (span_exact nonspace _ _
                    (word_all_nonspace _ (span_all is_word (t ++ rest)))
                    (boundary_not_nonspace _ C)) as E2.
      rewrite <- span_app in E2. rewrite E1 in E2.
      injection E2 as E2 _. rewrite E2, span_all in Hw. discriminate.
Qed.

Lemma no_match_inside (b a : str) :
  boundary_before b = false -> match_at TAGS_WITH_HASH_RE b a = None.
Proof.
  intros H. rewrite TAGS_WITH_HASH_RE_match_at, H. now destruct a.
Qed.

Lemma pieces_copy (t b rest : str) :
  forallb nonspace t = true ->
  boundary_before b = false ->
  pieces TAGS_WITH_HASH_RE b (t ++ rest) 0 =
  map Keep t ++ pieces TAGS_WITH_HASH_RE (rev t ++ b) rest 0.
Proof.
  revert b. induction t as [|x t IH]; intros b Ht Hb.
  - destruct rest; reflexivity.
  - simpl in Ht. apply andb_true_iff in Ht as [Hx Ht].
    simpl app at 1. cbn [pieces]. rewrite (no_match_inside _ _ Hb).
    cbn [map app rev]. rewrite <- app_assoc. f_equal.
    apply IH; [assumption|]. simpl. unfold nonspace in Hx.
    now destruct (is_space x).
Qed.

Lemma pieces_rest (b rest : str) :
  boundary_before b = false ->
  pieces TAGS_WITH_HASH_RE b rest 0 =
  match rest with
  | [] => []
  | c :: rest' => Keep c :: pieces TAGS_WITH_HASH_RE (c :: b) rest' 0
  end.
Proof.
  intros Hb. destruct rest as [|c rest]; cbn [pieces];
    rewrite (no_match_inside _ _ Hb); reflexivity.
Qed.

Lemma rev_nonspace_boundary (t b : str) :
  t <> [] -> forallb nonspace t = true -> boundary_before (rev t ++ b) = false.
Proof.
  intros Hne Ht.
  destruct (rev t) as [|y r] eqn:E.
  - apply (f_equal (@rev ascii)) in E. rewrite rev_involutive in E. now subst.
  - simpl. assert (Hy : In y t) by (apply in_rev; rewrite E; now left).
    rewrite forallb_forall in Ht. specialize (Ht y Hy).
    unfold nonspace in Ht. now destruct (is_space y).
Qed.

Lemma sub_out_unfold (b t rest : str) :
  boundary_before b = true ->
  forallb nonspace t = true ->
  boundary_after rest = true ->
  sub_out b (t ++ rest) =
  rewrite_token t ++
  match rest with
  | [] => []
  | c :: rest' => c :: sub_out (c :: rev t ++ b) rest'
  end.
Proof.
  intros Hb Ht Hr. unfold sub_out.
  pose proof (hashtag_match b t rest Hb Ht Hr) as Hm.
  unfold rewrite_token.
  destruct (is_hashtag t) eqn:Hh.
  - destruct t as [|x t]; [discriminate|].
    simpl app at 1. cbn [pieces]. simpl app in Hm. rewrite Hm.
    cbn [List.length]. rewrite pieces_skip.
    rewrite pieces_rest.
    2:{ change (rev t ++ x :: b) with (rev t ++ [x] ++ b).
        rewrite app_assoc. apply (rev_nonspace_boundary (x :: t));
          [discriminate | assumption]. }
    cbn [flat_map].
    replace (firstn (S (List.length t)) (x :: t ++ rest)) with (x :: t).
    2:{ change (x :: t ++ rest) with ((x :: t) ++ rest).
        change (S (List.length t)) with (List.length (x :: t)).
        rewrite firstn_app, Nat.sub_diag, firstn_all. simpl. now rewrite app_nil_r. }
    unfold tag_filter at 1. f_equal.
    destruct rest as [|c rest']; [reflexivity|].
    cbn [flat_map app rev]. now rewrite <- app_assoc.
  - destruct t as [|x t].
    + simpl app. destruct rest as [|c rest'].
      * cbn [pieces]. simpl app in Hm. rewrite Hm. reflexivity.
      * cbn [pieces]. simpl app in Hm. rewrite Hm. reflexivity.
    + simpl app at 1. cbn [pieces]. simpl app in Hm. rewrite Hm.
      simpl in Ht. apply andb_true_iff in Ht as [Hx Ht].
      rewrite pieces_copy; [|assumption|].
      2:{ simpl. unfold nonspace in Hx. now destruct (is_space x). }
      rewrite pieces_rest.
      2:{ change (rev t ++ x :: b) with (rev t ++ [x] ++ b).
          rewrite app_assoc. apply (rev_nonspace_boundary (x :: t));
            [discriminate|]. simpl. now rewrite Hx, Ht. }
      cbn [flat_map app]. f_equal.
      rewrite flat_map_app.
      rewrite (flat_map_keep _ (fun c => [c])); [|reflexivity].
      rewrite flat_map_single. f_equal.
      destruct rest as [|c rest']; [reflexivity|].
      cbn [flat_map app rev]. now rewrite <- app_assoc.
Qed.

Lemma span_snd_length (p : ascii -> bool) (a : str) :
  List.length (snd (span p a)) <= List.length a.
Proof.
  rewrite (span_app p a) at 2. rewrite length_app. lia.
Qed.

(** [re.sub] with [TAGS_WITH_HASH_RE] rewrites token by token. *)
Lemma sub_out_tokens (n : nat) :
  forall a b, List.length a <= n -> boundary_before b = true ->
              sub_out b a = rewrite_tokens [] a.
Proof.
  induction n as [|n IH]; intros a b Hl Hb.
  - destruct a; [|simpl in Hl; lia].
    unfold sub_out. cbn [pieces].
    rewrite TAGS_WITH_HASH_RE_match_at. reflexivity.
  - rewrite rewrite_tokens_unfold. cbn [rev app].
    rewrite (span_app nonspace a) at 1.
    rewrite sub_out_unfold;
      [| assumption | apply span_all | apply nonspace_rest_boundary].
    f_equal.
    pose proof (span_snd_length nonspace a) as Hlen.
    pose proof (nonspace_rest_boundary a) as Hr.
    destruct (snd (span nonspace a)) as [|c rest']; [reflexivity|].
    f_equal. apply IH; [simpl in Hlen; lia | exact Hr].
Qed.

Lemma lstrip_head (s : str) :
  match lstrip s with [] => True | x :: _ => is_space x = false end.
Proof.
  induction s as [|c s IH]; simpl; [exact I|].
  destruct (is_space c) eqn:E; [exact IH | exact E].
Qed.

Lemma lstrip_split (s : str) :
  exists l, s = l ++ lstrip s /\ forallb is_space l = true.
Proof.
  induction s as [|c s [l [E Hl]]]; simpl.
  - now exists [].
  - destruct (is_space c) eqn:Ec.
    + exists (c :: l). simpl. rewrite Ec. split; [now rewrite <- E | assumption].
    + now exists [].
Qed.

Lemma forallb_rev (p : ascii -> bool) (l : str) :
  forallb p (rev l) = forallb p l.
Proof.
  induction l as [|x l IH]; simpl; [reflexivity|].
  rewrite forallb_app, IH. simpl. rewrite andb_true_r. apply andb_comm.
Qed.

Lemma rstrip_split (s : str) :
  exists r, s = rstrip s ++ r /\ forallb is_space r = true.
Proof.
  unfold rstrip. destruct (lstrip_split (rev s)) as [l [E Hl]].
  exists (rev l). split.
  - rewrite <- rev_app_distr, <- E. symmetry. apply rev_involutive.
  - now rewrite forallb_rev.
Qed.

Lemma strip_spec (s : str) :
  exists l r, s = l ++ strip s ++ r /\
              forallb is_space l = true /\ forallb is_space r = true /\
              no_outer_space (strip s).
Proof.
  unfold strip.
  destruct (lstrip_split s) as [l [El Hl]].
  destruct (rstrip_split (lstrip s)) as [r [Er Hr]].
  exists l, r. repeat split; try assumption.
  - now rewrite <- Er.
  - pose proof (lstrip_head s) as Hh. rewrite Er in Hh.
    destruct (rstrip (lstrip s)); [exact I | exact Hh].
  - unfold rstrip. rewrite rev_involutive. apply lstrip_head.
Qed.

(** *** Deciding whether a content holds a tag token *)

Lemma matches_nowhere (r : regex) (a b : str) :
  matches_somewhere r b a = false ->
  forall pre suf, a = pre ++ suf -> match_at r (rev pre ++ b) suf = None.
Proof.
  revert b. induction a as [|x a IH]; intros b H pre suf E.
  - symmetry in E. apply app_eq_nil in E as [-> ->]. simpl in *.
    destruct (match_at r b []); [discriminate | reflexivity].
  - simpl in H. destruct (match_at r b (x :: a)) eqn:M; [discriminate|].
    destruct pre as [|y pre]; simpl in E.
    + subst suf. exact M.
    + injection E as -> E. cbn [rev]. rewrite <- app_assoc. now apply IH.
Qed.

Lemma matches_somewhere_found (r : regex) (pre suf b : str) (n : nat) :
  match_at r (rev pre ++ b) suf = Some n ->
  matches_somewhere r b (pre ++ suf) = true.
Proof.
  revert b. induction pre as [|y pre IH]; intros b H; simpl in *.
  - destruct suf; simpl; now rewrite H.
  - destruct (match_at r b (y :: pre ++ suf)); [reflexivity|].
    apply IH. now rewrite <- app_assoc in H.
Qed.

Lemma tag_token_in_iff (content : str) :
  tag_token_in content <-> matches_somewhere TAGS_RE [] content = true.
Proof.
  split.
  - intros [pre [name [post [E [Hne [Hw [Hb Ha]]]]]]].
    subst content.
    change (pre ++ "#"%char :: name ++ post)
      with (pre ++ ["#"%char] ++ name ++ post).
    rewrite app_assoc.
    apply matches_somewhere_found with (n := List.length name).
    rewrite app_nil_r, TAGS_RE_match_at, rev_app_distr.
    rewrite (span_exact is_word name post Hw (boundary_not_word _ Ha)).
    cbn [fst snd rev app]. rewrite Ha.
    destruct name as [|c name]; [congruence|].
    cbn [is_empty negb]. rewrite !andb_true_r.
    destruct (rev pre) as [|y b]; simpl in *; [reflexivity | now rewrite Hb].
  - intros H.
    destruct (matches_somewhere TAGS_RE [] content) eqn:M; [|discriminate].
    clear H.
    assert (G : forall a b, matches_somewhere TAGS_RE b a = true ->
                exists pre suf n, a = pre ++ suf /\
                                  match_at TAGS_RE (rev pre ++ b) suf = Some n).
    { induction a as [|x a IH]; intros b Hm; simpl in Hm.
      - destruct (match_at TAGS_RE b []) eqn:E; [|discriminate].
        now exists [], [], n.
      - destruct (match_at TAGS_RE b (x :: a)) eqn:E.
        + now exists [], (x :: a), n.
        + destruct (IH _ Hm) as [pre [suf [n [Ea Hn]]]].
          exists (x :: pre), suf, n. split; [now rewrite Ea|].
          cbn [rev]. now rewrite <- app_assoc. }
    destruct (G _ _ M) as [pre [suf [n [E Hn]]]].
    rewrite app_nil_r in Hn. subst content.
    now apply TAGS_RE_match_token with (n := n).
Qed.

(* ------------------------------------------------------------------ *)
(** ** The Tag Extractor *)

(** C2, as the code has it: extracting the tags of
    ["Shopping #groceries list"] gives the tag set [{"groceries"}], and the
    content with the matched token removed, ["Shopping # list"]: the [#] is
    behind the match, not part of it, so it stays, with both spaces. *)
Theorem extract_tags_shopping :
  extract_tags (lit "Shopping #groceries list") =
  Ok (lit "Shopping # list", [lit "groceries"]).
Proof. reflexivity. Qed.

(** The stripped content is not ["Shopping list"]. *)
Lemma extract_tags_shopping_keeps_hash :
  extract_tags (lit "Shopping #groceries list") <>
  Ok (lit "Shopping list", [lit "groceries"]).
Proof. vm_compute. discriminate. Qed.



(* ------------------------------------------------------------------ *)
(** ** Query preprocessing *)

Lemma pre_process_tokens (term : str) :
  pre_process_search_term term = rewrite_tokens [] (strip term).
Proof.
  unfold pre_process_search_term, re_sub.
  exact (sub_out_tokens (List.length (strip term)) (strip term) []
           (Nat.le_refl _) eq_refl).
Qed.


(* ------------------------------------------------------------------ *)
(** ** [Note.filepath] *)

Lemma last_cons_default {A : Type} (x d : A) (l : list A) :
  last (x :: l) d = last l x.
Proof.
  revert x d. induction l as [|y l IH]; intros x d; [reflexivity|].
  change (last (x :: y :: l) d) with (last (y :: l) d).
  change (last (y :: l) x) with (last (y :: l) x).
  now rewrite (IH y d), (IH y x).
Qed.

Lemma filepath_loop_last (filename : str) (dirlist : list str) (init : str) :
  fold_left (fun filepath file =>
               if contains filename file then file else filepath)
            dirlist init =
  last (filter (contains filename) dirlist) init.
Proof.
  revert init. induction dirlist as [|file dirlist IH]; intros init.
  - reflexivity.
  - cbn [fold_left filter]. rewrite IH.
    destruct (contains filename file); [|reflexivity].
    now rewrite last_cons_default.
Qed.


(* ------------------------------------------------------------------ *)
(** ** [Flatnotes.get_tags] *)

(** C3, as the code has it: [get_tags] calls [self.update_index_debounced],
    which [Flatnotes] does not define, so in every state of the index and
    of the note store the call raises [AttributeError] before any
    synchronisation and before the tags are read. *)
Theorem get_tags_raises (fs : FS) (self : Flatnotes) :
  get_tags fs self = Raise AttributeError.
Proof. reflexivity. Qed.

(* ------------------------------------------------------------------ *)
(** ** Synchronisation: an entry refreshed from another note's file *)

(** C6, at an input where the code departs from it: the index holds the
    entry of [a.md] as it was first indexed; then [a.md] is edited and a
    note [sub/data.md] appears.  The entry of [a.md] is stale, by the
    modification time of [notes/a.md], and is replaced, but with the
    content and the modification time of [notes/sub/data.md], the file that
    [Note.filepath] resolves [a.md] to. *)
Theorem update_index_wrong_file :
  update_index fs_a_old (mkFlatnotes (lit "notes") []) false = Ok idx_a_old /\
  read_file fs_a_data (path_join (lit "notes") (lit "a.md")) = Ok (lit "alpha") /\
  getmtime fs_a_data (path_join (lit "notes") (lit "a.md")) = Ok 5%Z /\
  update_index fs_a_data (mkFlatnotes (lit "notes") idx_a_old) false =
  Ok [ mkDoc (lit "a.md") 7 (lit "a") (lit "delta") [];
       mkDoc (lit "data.md") 7 (lit "data") (lit "delta") [] ].
Proof. repeat split. Qed.

(* ------------------------------------------------------------------ *)
(** ** Sorting *)

Lemma code_inj (x y : ascii) : code x = code y -> x = y.
Proof.
  unfold code. intros H.
  rewrite <- (ascii_nat_embedding x), <- (ascii_nat_embedding y). now rewrite H.
Qed.

Lemma str_compare_eq (a b : str) : str_compare a b = Eq -> a = b.
Proof.
  revert b. induction a as [|x a IH]; intros [|y b]; simpl; try discriminate.
  - reflexivity.
  - destruct (Nat.compare (code x) (code y)) eqn:E; try discriminate.
    intros H. apply Nat.compare_eq in E. apply code_inj in E.
    now rewrite E, (IH b H).
Qed.

Lemma str_compare_refl (a : str) : str_compare a a = Eq.
Proof.
  induction a as [|x a IH]; simpl; [reflexivity|].
  now rewrite Nat.compare_refl.
Qed.

Lemma str_compare_antisym (a b : str) :
  str_compare b a = CompOpp (str_compare a b).
Proof.
  revert b. induction a as [|x a IH]; intros [|y b]; simpl; try reflexivity.
  rewrite (Nat.compare_antisym (code x) (code y)).
  destruct (Nat.compare (code x) (code y)); simpl; [apply IH | reflexivity..].
Qed.

Lemma str_compare_trans (a b c : str) :
  str_compare a b = Lt -> str_compare b c = Lt -> str_compare a c = Lt.
Proof.
  revert b c. induction a as [|x a IH]; intros [|y b] [|z c]; simpl;
    try discriminate; try reflexivity.
  destruct (Nat.compare (code x) (code y)) eqn:E1; try discriminate;
    destruct (Nat.compare (code y) (code z)) eqn:E2; try discriminate;
    intros H1 H2.
  - apply Nat.compare_eq in E1, E2.
    rewrite E1, E2, Nat.compare_refl. now apply (IH b c).
  - apply Nat.compare_eq in E1. now rewrite E1, E2.
  - apply Nat.compare_eq in E2. now rewrite <- E2, E1.
  - apply Nat.compare_lt_iff in E1, E2.
    assert (E : Nat.compare (code x) (code z) = Lt)
      by (apply Nat.compare_lt_iff; lia).
    now rewrite E.
Qed.

Lemma py_compare_eq (a b : pyval) : py_compare a b = Eq -> a = b.
Proof.
  destruct a, b; simpl; try discriminate; intros H.
  - now rewrite (Z.compare_eq _ _ H).
  - now rewrite (Z.compare_eq _ _ H).
  - now rewrite (str_compare_eq _ _ H).
Qed.

Lemma py_compare_refl (a : pyval) : py_compare a a = Eq.
Proof.
  destruct a; simpl; [apply Z.compare_refl.. | apply str_compare_refl].
Qed.

Lemma py_compare_antisym (a b : pyval) :
  py_compare b a = CompOpp (py_compare a b).
Proof.
  destruct a, b; simpl; try reflexivity.
  - apply Z.compare_antisym.
  - apply Z.compare_antisym.
  - apply str_compare_antisym.
Qed.

Lemma py_compare_trans (a b c : pyval) :
  py_compare a b = Lt -> py_compare b c = Lt -> py_compare a c = Lt.
Proof.
  destruct a, b, c; simpl; try discriminate; try reflexivity.
  - rewrite !Z.compare_lt_iff. lia.
  - rewrite !Z.compare_lt_iff. lia.
  - apply str_compare_trans.
Qed.

Lemma tuple_leb_total (x y : pyval * nat) :
  tuple_leb x y = false -> tuple_leb y x = true.
Proof.
  unfold tuple_leb. rewrite (py_compare_antisym (fst x) (fst y)).
  destruct (py_compare (fst x) (fst y)); simpl; try congruence.
  rewrite Nat.leb_gt, Nat.leb_le. lia.
Qed.

Lemma tuple_leb_trans (x y z : pyval * nat) :
  tuple_leb x y = true -> tuple_leb y z = true -> tuple_leb x z = true.
Proof.
  unfold tuple_leb.
  destruct (py_compare (fst x) (fst y)) eqn:E1; try discriminate;
    destruct (py_compare (fst y) (fst z)) eqn:E2; try discriminate;
    intros H1 H2.
  - apply py_compare_eq in E1. rewrite E1, E2.
    apply Nat.leb_le in H1, H2. apply Nat.leb_le. lia.
  - apply py_compare_eq in E1. now rewrite E1, E2.
  - apply py_compare_eq in E2. now rewrite <- E2, E1.
  - now rewrite (py_compare_trans _ _ _ E1 E2).
Qed.

Lemma tuple_leb_antisym (x y : pyval * nat) :
  tuple_leb x y = true -> tuple_leb y x = true -> x = y.
Proof.
  unfold tuple_leb. rewrite (py_compare_antisym (fst x) (fst y)).
  destruct (py_compare (fst x) (fst y)) eqn:E; simpl; try discriminate.
  intros H1 H2. apply py_compare_eq in E. apply Nat.leb_le in H1, H2.
  destruct x, y; simpl in *. f_equal; [assumption | lia].
Qed.

Section SortFacts.

Variable T : Type.
Variable key : T -> pyval * nat.

Lemma insert_perm (x : T) (l : list T) : Permutation (insert key x l) (x :: l).
Proof.
  induction l as [|y l IH]; simpl; [reflexivity|].
  destruct (tuple_leb (key x) (key y)); [reflexivity|].
  rewrite IH. apply perm_swap.
Qed.

Lemma stable_sort_perm (l : list T) : Permutation (stable_sort key l) l.
Proof.
  induction l as [|x l IH]; simpl; [reflexivity|].
  rewrite insert_perm. now constructor.
Qed.

Lemma insert_sorted (x : T) (l : list T) :
  StronglySorted (key_le key) l -> StronglySorted (key_le key) (insert key x l).
Proof.
  induction 1 as [|y l Hs IH Hy]; simpl.
  - repeat constructor.
  - destruct (tuple_leb (key x) (key y)) eqn:E.
    + constructor; [now constructor|].
      constructor; [exact E|].
      rewrite Forall_forall in *. intros z Hz.
      exact (tuple_leb_trans _ _ _ E (Hy z Hz)).
    + constructor; [exact IH|].
      rewrite Forall_forall in *. intros z Hz.
      apply (Permutation_in _ (insert_perm x l)) in Hz.
      destruct Hz as [<- | Hz]; [now apply tuple_leb_total | now apply Hy].
Qed.

Lemma stable_sort_sorted (l : list T) : StronglySorted (key_le key) (stable_sort key l).
Proof.
  induction l as [|x l IH]; simpl; [constructor | now apply insert_sorted].
Qed.

(** Two sorted arrangements of the same items are the same list when no
    two items share a key. *)
Lemma sorted_unique (l1 l2 : list T) :
  Permutation l1 l2 ->
  StronglySorted (key_le key) l1 -> StronglySorted (key_le key) l2 ->
  (forall a b, In a l1 -> In b l1 -> key a = key b -> a = b) ->
  l1 = l2.
Proof.
  revert l2. induction l1 as [|x l1 IH]; intros l2 Hp H1 H2 Hinj.
  - now apply Permutation_nil in Hp.
  - destruct l2 as [|y l2].
    + symmetry in Hp. now apply Permutation_nil in Hp.
    + assert (Exy : x = y).
      { apply StronglySorted_inv in H1 as [_ F1].
        apply StronglySorted_inv in H2 as [_ F2].
        rewrite Forall_forall in F1, F2.
        assert (Hy : In y (x :: l1))
          by (apply (Permutation_in _ (Permutation_sym Hp)); now left).
        assert (Hx : In x (y :: l2))
          by (apply (Permutation_in _ Hp); now left).
        destruct Hy as [Hy | Hy]; [assumption|].
        destruct Hx as [Hx | Hx]; [now symmetry|].
        apply Hinj; [now left | now right |].
        apply tuple_leb_antisym; [apply F1, Hy | apply F2, Hx]. }
      subst y. f_equal.
      apply IH.
      * now apply Permutation_cons_inv in Hp.
      * now apply StronglySorted_inv in H1.
      * now apply StronglySorted_inv in H2.
      * intros a b Ha Hb. apply Hinj; now right.
Qed.

Lemma list_sort_perm (reverse : bool) (l : list T) :
  Permutation (list_sort key reverse l) l.
Proof.
  unfold list_sort. destruct reverse; [|apply stable_sort_perm].
  rewrite <- Permutation_rev, stable_sort_perm. symmetry. apply Permutation_rev.
Qed.

(** A reverse sort is the reverse of the forward sort. *)
Lemma list_sort_reverse (l : list T) :
  (forall a b, In a l -> In b l -> key a = key b -> a = b) ->
  list_sort key true l = rev (list_sort key false l).
Proof.
  intros Hinj. unfold list_sort. f_equal.
  apply sorted_unique.
  - rewrite !stable_sort_perm. symmetry. apply Permutation_rev.
  - apply stable_sort_sorted.
  - apply stable_sort_sorted.
  - intros a b Ha Hb. apply Hinj.
    + apply in_rev. now apply (Permutation_in _ (stable_sort_perm _)).
    + apply in_rev. now apply (Permutation_in _ (stable_sort_perm _)).
Qed.

Lemma firstn_sorted (R : T -> T -> Prop) (n : nat) (l : list T) :
  StronglySorted R l -> StronglySorted R (firstn n l).
Proof.
  revert n. induction l as [|x l IH]; intros [|n] H; simpl; try constructor.
  - apply IH. now apply StronglySorted_inv in H.
  - apply StronglySorted_inv in H as [_ F].
    rewrite Forall_forall in *. intros z Hz. apply F.
    rewrite <- (firstn_skipn n l). apply in_or_app. now left.
Qed.

End SortFacts.

Lemma In_firstn {A : Type} (n : nat) (l : list A) (x : A) :
  In x (firstn n l) -> In x l.
Proof.
  intros H. rewrite <- (firstn_skipn n l). apply in_or_app. now left.
Qed.

(* ------------------------------------------------------------------ *)
(** ** Facts about [mapM] *)

Lemma mapM_Forall2 {A B : Type} (f : A -> result B) (l : list A) (rs : list B) :
  mapM f l = Ok rs -> Forall2 (fun x r => f x = Ok r) l rs.
Proof.
  revert rs. induction l as [|x l IH]; intros rs; simpl.
  - intros H. injection H as <-. constructor.
  - destruct (f x) as [y|e] eqn:E; simpl; [|discriminate].
    destruct (mapM f l) as [ys|e]; simpl; [|discriminate].
    intros H. injection H as <-. constructor; [assumption | now apply IH].
Qed.

Lemma mapM_app {A B : Type} (f : A -> result B) (l1 l2 : list A) (r1 r2 : list B) :
  mapM f l1 = Ok r1 -> mapM f l2 = Ok r2 -> mapM f (l1 ++ l2) = Ok (r1 ++ r2).
Proof.
  revert r1. induction l1 as [|x l1 IH]; intros r1; simpl.
  - intros H. injection H as <-. trivial.
  - destruct (f x) as [y|e]; simpl; [|discriminate].
    destruct (mapM f l1) as [ys|e]; simpl; [|discriminate].
    intros H H2. injection H as <-. now rewrite (IH ys eq_refl H2).
Qed.

Lemma mapM_rev {A B : Type} (f : A -> result B) (l : list A) (rs : list B) :
  mapM f l = Ok rs -> mapM f (rev l) = Ok (rev rs).
Proof.
  revert rs. induction l as [|x l IH]; intros rs; simpl.
  - intros H. now injection H as <-.
  - destruct (f x) as [y|e] eqn:E; simpl; [|discriminate].
    destruct (mapM f l) as [ys|e]; simpl; [|discriminate].
    intros H. injection H as <-. simpl.
    apply mapM_app; [now apply IH | simpl; now rewrite E].
Qed.

Lemma Forall2_sorted {A B : Type} (P : A -> B -> Prop)
    (R : A -> A -> Prop) (R' : B -> B -> Prop) (l : list A) (rs : list B) :
  (forall x y r s, P x r -> P y s -> R x y -> R' r s) ->
  Forall2 P l rs -> StronglySorted R l -> StronglySorted R' rs.
Proof.
  intros H F. induction F as [|x r l rs Hxr F IH]; intros S; [constructor|].
  apply StronglySorted_inv in S as [S Hx].
  constructor; [now apply IH|].
  clear IH S. induction F as [|y s l rs Hys F IH]; [constructor|].
  apply Forall_cons_iff in Hx as [Hxy Hx].
  constructor; [exact (H _ _ _ _ Hxr Hys Hxy) | now apply IH].
Qed.

Lemma Forall2_In_r {A B : Type} (P : A -> B -> Prop) (l : list A) (rs : list B) :
  Forall2 P l rs -> forall r, In r rs -> exists x, In x l /\ P x r.
Proof.
  induction 1 as [|x r0 l rs H F IH]; intros r Hr; [contradiction|].
  destruct Hr as [<- | Hr].
  - exists x. split; [now left | assumption].
  - destruct (IH r Hr) as [x' [Hx' Hp]]. exists x'. split; [now right | assumption].
Qed.

(* ------------------------------------------------------------------ *)
(** ** Searching: order of the results and the score field *)

Lemma Forall2_Forall_l {A B : Type} (P : A -> B -> Prop) (Q : A -> Prop)
    (l : list A) (rs : list B) :
  Forall2 P l rs -> Forall Q l -> Forall2 (fun x r => P x r /\ Q x) l rs.
Proof.
  induction 1 as [|x r l rs H F IH]; intros HQ; [constructor|].
  apply Forall_cons_iff in HQ as [Hx HQ].
  constructor; [now split | now apply IH].
Qed.

Lemma search_sortedby_field (sort : str) :
  sort = lit "title" \/ sort = lit "last_modified" ->
  search_sortedby sort = Some sort.
Proof. intros [-> | ->]; reflexivity. Qed.

Lemma search_sortedby_score (sort : str) :
  sort <> lit "title" -> sort <> lit "last_modified" ->
  search_sortedby sort = None.
Proof.
  intros H1 H2. unfold search_sortedby, str_in. cbn [existsb].
  apply str_eqb_neq in H1, H2. now rewrite H1, H2.
Qed.

Section SearchFacts.

Variable Query : Type.
Variable parse : str -> result Query.
Variable matches : Query -> Doc -> bool.
Variable score : query Query -> Doc -> Z.
Variable matched_terms : query Query -> Doc -> list (str * str).
Variable highlights : fragmenter -> query Query -> Doc -> str -> str -> str.
Variable fs : FS.
Variable self : Flatnotes.

Let run := search parse matches score matched_terms highlights fs self.
Let init := SearchResult_init matched_terms highlights fs self.

Lemma collect_spec (q : query Query) (sortedby : option str) :
  forall docs n hs,
    collect matches score q sortedby n docs = Ok hs ->
    Forall (fun h => In (hit_fields h) docs /\
                     query_matches matches q (hit_fields h) = true /\
                     sort_value score q sortedby (hit_fields h) =
                       Ok (hit_score h) /\
                     n <= hit_docnum h) hs /\
    NoDup (map (@hit_docnum Query) hs).
Proof.
  induction docs as [|d docs IH]; intros n hs; simpl.
  - intros H. injection H as <-. split; constructor.
  - destruct (query_matches matches q d) eqn:M.
    + destruct (sort_value score q sortedby d) as [v|e] eqn:V; simpl;
        [|discriminate].
      destruct (collect matches score q sortedby (S n) docs) as [hs'|e] eqn:C;
        simpl; [|discriminate].
      intros H. injection H as <-.
      destruct (IH _ _ C) as [F N]. split.
      * constructor; [simpl; auto|].
        eapply Forall_impl; [|exact F]. simpl.
        intros h [H1 [H2 [H3 H4]]]. repeat split; auto. lia.
      * simpl. constructor; [|exact N].
        intros Hin. apply in_map_iff in Hin as [h [E Hh]].
        rewrite Forall_forall in F. destruct (F h Hh) as [_ [_ [_ Hle]]]. lia.
    + intros C. destruct (IH _ _ C) as [F N]. split; [|exact N].
      eapply Forall_impl; [|exact F]. simpl.
      intros h [H1 [H2 [H3 H4]]]. repeat split; auto. lia.
Qed.

Lemma sort_key_inj (hs : list (Hit Query)) :
  NoDup (map (@hit_docnum Query) hs) ->
  forall a b, In a hs -> In b hs -> sort_key a = sort_key b -> a = b.
Proof.
  intros N a b Ha Hb E.
  assert (En : hit_docnum a = hit_docnum b).
  { unfold sort_key in E.
    destruct (hit_score a), (hit_score b); now injection E. }
  clear E. induction hs as [|h hs IH]; [contradiction|].
  simpl in N. apply NoDup_cons_iff in N as [Hn N].
  destruct Ha as [-> | Ha], Hb as [-> | Hb]; auto.
  - exfalso. apply Hn. rewrite En. now apply in_map.
  - exfalso. apply Hn. rewrite <- En. now apply in_map.
Qed.

Lemma init_score (h : Hit Query) (r : SearchResult) :
  init h = Ok r ->
  SearchResult_score r =
  match hit_score h with PyFloat x => Some x | _ => None end.
Proof.
  unfold init, SearchResult_init.
  destruct (Note_init _) as [note|e]; simpl; [|discriminate].
  match goal with |- bind ?m _ = _ -> _ => destruct m as [c|e] end;
    simpl; [|discriminate].
  intros H. now injection H as <-.
Qed.

(** What a successful search did. *)
Lemma search_inv (term sort order : str) (limit : option nat)
    (idx : Index) (rs : list SearchResult) :
  run term sort order limit = Ok (idx, rs) ->
  update_index fs self false = Ok idx /\
  exists q items,
    collect matches score q (search_sortedby sort) 0 idx = Ok items /\
    mapM init
      (match limit with
       | Some n => firstn n (list_sort (@sort_key Query)
                               (search_reverse sort order) items)
       | None => list_sort (@sort_key Query) (search_reverse sort order) items
       end) = Ok rs.
Proof.
  unfold run, search.
  destruct (update_index fs self false) as [idx0|e]; simpl; [|discriminate].
  match goal with |- bind ?m _ = _ -> _ => destruct m as [q|e] end;
    simpl; [|discriminate].
  unfold searcher_search.
  destruct limit as [[|n]|]; simpl; try discriminate.
  - destruct (collect matches score q (search_sortedby sort) 0 idx0)
      as [items|e] eqn:C; simpl; [|discriminate].
    destruct (mapM _ _) as [rs0|e] eqn:M; simpl; [|discriminate].
    intros H. injection H as <- <-. split; [reflexivity|].
    exists q, items. split; [assumption | exact M].
  - destruct (collect matches score q (search_sortedby sort) 0 idx0)
      as [items|e] eqn:C; simpl; [|discriminate].
    destruct (mapM _ _) as [rs0|e] eqn:M; simpl; [|discriminate].
    intros H. injection H as <- <-. split; [reflexivity|].
    exists q, items. split; [assumption | exact M].
Qed.

Lemma search_title_reversed (term : str) (idx : Index) (rs : list SearchResult) :
  run term (lit "title") (lit "asc") None = Ok (idx, rs) ->
  run term (lit "title") (lit "desc") None = Ok (idx, rev rs).
Proof.
  unfold run, search.
  destruct (update_index fs self false) as [idx0|e]; cbn [bind]; [|discriminate].
  match goal with |- bind ?m _ = _ -> _ => destruct m as [q|e] end;
    cbn [bind]; [|discriminate].
  unfold searcher_search. cbn [bind].
  change (search_sortedby (lit "title")) with (Some (lit "title")).
  change (search_reverse (lit "title") (lit "asc")) with false.
  change (search_reverse (lit "title") (lit "desc")) with true.
  destruct (collect matches score q (Some (lit "title")) 0 idx0)
    as [items|e] eqn:C; cbn [bind]; [|discriminate].
  destruct (mapM _ (list_sort _ false items)) as [rs0|e] eqn:M; cbn [bind];
    [|discriminate].
  intros H. injection H as <- <-.
  rewrite list_sort_reverse.
  - fold init in M |- *. now rewrite (mapM_rev _ _ _ M).
  - apply sort_key_inj. exact (proj2 (collect_spec _ _ _ _ _ C)).
Qed.

Lemma search_score_descending (term sort : str) (limit : option nat)
    (idx : Index) (rs : list SearchResult) :
  sort <> lit "title" -> sort <> lit "last_modified" ->
  run term sort (lit "desc") limit = Ok (idx, rs) ->
  StronglySorted score_ge rs.
Proof.
  intros H1 H2 H. apply search_inv in H as [_ [q [items [C M]]]].
  assert (Er : search_reverse sort (lit "desc") = false).
  { unfold search_reverse. now rewrite (search_sortedby_score _ H1 H2). }
  rewrite Er in M. rewrite (search_sortedby_score _ H1 H2) in C.
  destruct (collect_spec _ _ _ _ _ C) as [F _].
  set (sorted := list_sort (@sort_key Query) false items) in *.
  assert (Fs : Forall (fun h => exists x, hit_score h = PyFloat x) sorted).
  { rewrite Forall_forall in *. intros h Hh.
    apply (Permutation_in _ (list_sort_perm _ (@sort_key Query) false items)) in Hh.
    destruct (F h Hh) as [_ [_ [V _]]]. simpl in V. injection V as <-.
    eauto. }
  assert (Ss : StronglySorted (key_le (@sort_key Query)) sorted)
    by apply stable_sort_sorted.
  set (results := match limit with
                  | Some n => firstn n sorted
                  | None => sorted
                  end) in *.
  assert (Fr : Forall (fun h => exists x, hit_score h = PyFloat x) results).
  { destruct limit as [n|]; [|exact Fs].
    rewrite Forall_forall in *. intros h Hh. apply Fs.
    exact (In_firstn _ _ _ Hh). }
  assert (Sr : StronglySorted (key_le (@sort_key Query)) results).
  { destruct limit as [n|]; [now apply firstn_sorted | exact Ss]. }
  apply mapM_Forall2 in M.
  apply (Forall2_Forall_l _ _ _ _ M) in Fr.
  refine (Forall2_sorted _ _ _ _ _ _ Fr Sr).
  intros h1 h2 r1 r2 [I1 [x1 E1]] [I2 [x2 E2]] Hle.
  unfold score_ge. rewrite (init_score _ _ I1), (init_score _ _ I2), E1, E2.
  unfold key_le, sort_key, tuple_leb in Hle. rewrite E1, E2 in Hle.
  cbn [fst snd py_compare] in Hle.
  destruct (Z.compare (0 - x1) (0 - x2)) eqn:E; try discriminate.
  - apply Z.compare_eq in E. lia.
  - change (0 - x1 < 0 - x2)%Z in E. lia.
Qed.

(** C5: with no limit, the results sorted by title ascending are those
    sorted by title descending, reversed; a search by relevance in
    descending order gives the entries with the highest score first; and
    the direction handed to Whoosh is the requested one when sorting by a
    field and the opposite one when sorting by relevance. *)
Theorem search_order (term : str) :
  (forall idx rs,
      run term (lit "title") (lit "asc") None = Ok (idx, rs) ->
      run term (lit "title") (lit "desc") None = Ok (idx, rev rs)) /\
  (forall sort limit idx rs,
      sort <> lit "title" -> sort <> lit "last_modified" ->
      run term sort (lit "desc") limit = Ok (idx, rs) ->
      StronglySorted score_ge rs) /\
  (forall sort order,
      search_reverse sort order =
      if str_in sort [lit "title"; lit "last_modified"]
      then str_eqb order (lit "desc")
      else negb (str_eqb order (lit "desc"))).
Proof.
  split; [|split].
  - apply search_title_reversed.
  - intros sort limit idx rs. apply search_score_descending.
  - intros sort order. unfold search_reverse, search_sortedby.
    now destruct (str_in sort _).
Qed.


End SearchFacts.

(* ------------------------------------------------------------------ *)
(** ** Synchronisation: the keys of the index after [update_index] *)

Lemma lstrip_id (s : str) :
  match s with [] => True | x :: _ => is_space x = false end -> lstrip s = s.
Proof. destruct s as [|x s]; simpl; [reflexivity | now intros ->]. Qed.

Lemma strip_idem (s : str) : strip (strip s) = strip s.
Proof.
  destruct (strip_spec s) as [_ [_ [_ [_ [_ [Hh Hl]]]]]].
  unfold strip at 1. rewrite (lstrip_id _ Hh).
  unfold rstrip. rewrite (lstrip_id _ Hl). apply rev_involutive.
Qed.

Lemma strip_ext_md (t : str) : strip_ext (t ++ MARKDOWN_EXT) = t.
Proof.
  unfold strip_ext. rewrite rev_app_distr. simpl. apply rev_involutive.
Qed.

Lemma Note_init_title (name : str) (n : Note) :
  Note_init name = Ok n -> _title n = strip name.
Proof.
  unfold Note_init. destruct (negb _); [discriminate|].
  intros H. now injection H as <-.
Qed.

Lemma filter_filter {A : Type} (p q : A -> bool) (l : list A) :
  filter p (filter q l) = filter (fun x => q x && p x) l.
Proof.
  induction l as [|x l IH]; simpl; [reflexivity|].
  destruct (q x); simpl; [destruct (p x); now rewrite IH | exact IH].
Qed.

Lemma perm_partition {A : Type} (p : A -> bool) (l : list A) :
  Permutation (filter p l ++ filter (fun x => negb (p x)) l) l.
Proof.
  induction l as [|x l IH]; simpl; [constructor|].
  destruct (p x); simpl.
  - now constructor.
  - rewrite <- Permutation_middle. now constructor.
Qed.

Lemma NoDup_key_inj {A B : Type} (f : A -> B) (l : list A) (a b : A) :
  NoDup (map f l) -> In a l -> In b l -> f a = f b -> a = b.
Proof.
  induction l as [|x l IH]; simpl; [contradiction|].
  intros N Ha Hb E. apply NoDup_cons_iff in N as [Hx N].
  destruct Ha as [-> | Ha], Hb as [-> | Hb]; auto.
  - exfalso. apply Hx. rewrite E. now apply in_map.
  - exfalso. apply Hx. rewrite <- E. now apply in_map.
Qed.

(** Dropping entries keeps the keys distinct. *)
Lemma kept_keys_distinct (keep : Doc -> bool) (docs : list Doc) :
  NoDup (map filename docs) -> NoDup (map filename (filter keep docs)).
Proof.
  intros N. induction docs as [|d docs IH]; [exact N|].
  cbn [map] in N. apply NoDup_cons_iff in N as [Hd N].
  cbn [filter]. destruct (keep d); [|exact (IH N)].
  cbn [map]. apply NoDup_cons; [|exact (IH N)].
  intros Hin. apply Hd. apply in_map_iff in Hin as [y [E Hy]].
  apply filter_In in Hy as [Hy _]. rewrite <- E. now apply in_map.
Qed.

(** The members of a duplicate-free list [ks], followed by the members of
    [all] that are not among them, are the members of [all]. *)
Lemma perm_known_then_new (ks seen all : list str) :
  NoDup ks -> NoDup all -> incl ks all ->
  (forall k, In k seen <-> In k ks) ->
  Permutation (ks ++ filter (fun k => negb (str_in k seen)) all) all.
Proof.
  intros Nk Na Hi Hs.
  apply NoDup_Permutation; [|assumption|].
  - apply NoDup_app; [assumption | now apply NoDup_filter |].
    intros a Ha Hf. apply filter_In in Hf as [_ Hf].
    apply negb_true_iff, str_in_not_In in Hf. apply Hf. now apply Hs.
  - intros x. rewrite in_app_iff, filter_In. split.
    + intros [H | [H _]]; [now apply Hi | assumption].
    + intros H. destruct (str_in x seen) eqn:E.
      * left. apply Hs. now apply str_in_In.
      * right. split; [assumption|]. cbn beta. rewrite ?E. reflexivity.
Qed.

Lemma set_add_In (x k : str) (s : list str) :
  In k (set_add x s) <-> k = x \/ In k s.
Proof.
  unfold set_add. destruct (str_in x s) eqn:E.
  - apply str_in_In in E. split; [now right|]. intros [-> | H]; assumption.
  - rewrite in_app_iff. simpl. intuition.
Qed.

Lemma filter_cut_keys (k : str) (ks : list str) (l : list Doc) :
  filter (fun d => negb (str_in (filename d) ks))
         (filter (fun d => negb (str_eqb (filename d) k)) l) =
  filter (fun d => negb (str_in (filename d) (k :: ks))) l.
Proof.
  rewrite filter_filter. apply filter_ext. intros d.
  unfold str_in. cbn [existsb]. now rewrite negb_orb.
Qed.

Section SyncFacts.

Variable fs : FS.
Variable self : Flatnotes.

Lemma add_note_inv (w w' : Writer) (note : Note) :
  _add_note_to_index fs self w note = Ok w' ->
  exists d, filename d = Note_filename note /\ w' = update_document d w.
Proof.
  unfold _add_note_to_index.
  destruct (Note_content fs (dir self) note) as [c|e]; cbn [bind];
    [|discriminate].
  destruct (extract_tags c) as [[ex tag_set]|e]; cbn [bind]; [|discriminate].
  destruct (Note_last_modified fs (dir self) note) as [m|e]; cbn [bind];
    [|discriminate].
  intros H. injection H as <-. eexists. split. 2: reflexivity. reflexivity.
Qed.

Lemma get_notes_keys (paths : list str) (notes : list Note) :
  _get_notes_loop self paths = Ok notes ->
  map Note_filename notes = map key_of_path paths.
Proof.
  revert notes. induction paths as [|p paths IH]; intros notes; simpl.
  - intros H. now injection H as <-.
  - destruct (Note_init (strip_ext (basename p))) as [n|e] eqn:E; simpl;
      [|discriminate].
    destruct (_get_notes_loop self paths) as [ns|e]; simpl; [|discriminate].
    intros H. injection H as <-. simpl. rewrite (IH ns eq_refl). f_equal.
    unfold Note_filename, key_of_path. simpl.
    now rewrite (Note_init_title _ _ E).
Qed.

(** An entry under the file name of a note is rebuilt under that name. *)
Lemma note_key_canonical (k : str) (n : Note) :
  In k (note_keys fs (dir self)) ->
  Note_init (strip_ext k) = Ok n -> Note_filename n = k.
Proof.
  unfold note_keys. intros Hk Hn.
  apply in_map_iff in Hk as [p [<- _]].
  unfold key_of_path in *. rewrite strip_ext_md in Hn.
  unfold Note_filename. now rewrite (Note_init_title _ _ Hn), strip_idem.
Qed.

(** The loop over the committed documents: what it leaves of them, what
    it adds, and what it marks as seen. *)
Lemma existing_spec (docs : list Doc) :
  forall w indexed w' indexed',
    (forall d, In d docs -> stale fs self d = true ->
               forall n, Note_init (strip_ext (filename d)) = Ok n ->
                         Note_filename n = filename d) ->
    update_index_existing fs self docs w indexed = Ok (w', indexed') ->
    segments w' =
      filter (fun d => negb (str_in (filename d)
                (map filename (filter (fun d => negb (fresh fs self d)) docs))))
             (segments w) /\
    (exists U, added w' = added w ++ U /\
               map filename U = map filename (filter (stale fs self) docs)) /\
    (forall k, In k indexed' <->
               In k indexed \/ In k (map filename (filter (on_disk fs self) docs))) /\
    mergetype_clear w' = mergetype_clear w.
Proof.
  induction docs as [|d docs IH]; intros w indexed w' indexed' Hc H.
  - simpl in H. injection H as <- <-. simpl. repeat split.
    + now rewrite filter_true.
    + exists []. now rewrite app_nil_r.
    + tauto.
    + tauto.
  - assert (Hc' : forall d0, In d0 docs -> stale fs self d0 = true ->
              forall n, Note_init (strip_ext (filename d0)) = Ok n ->
                        Note_filename n = filename d0)
      by (intros d0 Hd0; apply Hc; now right).
    cbn [update_index_existing] in H.
    unfold fresh, stale, on_disk, unchanged in *.
    pose proof (Hc d (or_introl eq_refl)) as Hd. cbn beta in Hd.
    cbn [filter map].
    destruct (path_exists fs (path_join (dir self) (filename d))) eqn:E;
      cbn [negb andb] in *.
    + unfold path_exists in E. unfold getmtime in *.
      destruct (find_file fs (path_join (dir self) (filename d))) as [f|];
        [|discriminate].
      cbn [bind] in H.
      destruct (f_mtime f =? last_modified d)%Z; cbn [negb] in *.
      * destruct (IH _ _ _ _ Hc' H) as [S [[U [A KU]] [I M]]].
        repeat split; try assumption.
        -- exists U. now split.
        -- intros Hk. apply I in Hk as [Hk | Hk]; [|right; now right].
           apply set_add_In in Hk as [-> | Hk]; [right; now left | now left].
        -- intros Hk. apply I. rewrite set_add_In. simpl in Hk.
           destruct Hk as [Hk | [Hk | Hk]];
             [left; now right | left; left; now symmetry | now right].
      * destruct (Note_init (strip_ext (filename d))) as [n|e] eqn:En;
          cbn [bind] in H; [|discriminate].
        destruct (_add_note_to_index fs self w n) as [w1|e] eqn:Ea;
          cbn [bind] in H; [|discriminate].
        apply add_note_inv in Ea as [doc [Kd ->]].
        rewrite (Hd eq_refl n eq_refl) in Kd.
        destruct (IH _ _ _ _ Hc' H) as [S [[U [A KU]] [I M]]].
        repeat split.
        -- rewrite S. cbn [update_document add_document delete_by_term segments].
           rewrite Kd. apply filter_cut_keys.
        -- exists (doc :: U). split.
           ++ rewrite A. cbn [update_document add_document added].
              now rewrite <- app_assoc.
           ++ cbn [map]. now rewrite Kd, KU.
        -- intros Hk. apply I in Hk as [Hk | Hk]; [|right; now right].
           apply set_add_In in Hk as [-> | Hk]; [right; now left | now left].
        -- intros Hk. apply I. rewrite set_add_In. simpl in Hk.
           destruct Hk as [Hk | [Hk | Hk]];
             [left; now right | left; left; now symmetry | now right].
        -- exact M.
    + destruct (IH _ _ _ _ Hc' H) as [S [[U [A KU]] [I M]]].
      repeat split; try assumption.
      * rewrite S. cbn [delete_by_term segments]. apply filter_cut_keys.
      * exists U. now split.
      * apply I.
      * apply I.
Qed.

(** The loop over the notes of the directory. *)
Lemma new_spec (notes : list Note) (indexed : list str) :
  forall w w',
    update_index_new fs self notes indexed w = Ok w' ->
    exists V,
      added w' = added w ++ V /\
      map filename V =
        filter (fun k => negb (str_in k indexed)) (map Note_filename notes) /\
      segments w' =
        filter (fun d => negb (str_in (filename d) (map filename V)))
               (segments w) /\
      mergetype_clear w' = mergetype_clear w.
Proof.
  induction notes as [|note notes IH]; intros w w' H.
  - simpl in H. injection H as <-. exists []. simpl.
    repeat split; [now rewrite app_nil_r | now rewrite filter_true].
  - cbn [update_index_new] in H. cbn [map filter].
    destruct (negb (str_in (Note_filename note) indexed)).
    + destruct (_add_note_to_index fs self w note) as [w1|e] eqn:Ea;
        cbn [bind] in H; [|discriminate].
      apply add_note_inv in Ea as [doc [Kd ->]].
      destruct (IH _ _ H) as [V [A [KV [S M]]]].
      exists (doc :: V). repeat split.
      * rewrite A. cbn [update_document add_document added].
        now rewrite <- app_assoc.
      * cbn [map]. now rewrite Kd, KV.
      * rewrite S. cbn [update_document add_document delete_by_term segments map].
        apply filter_cut_keys.
      * exact M.
    + exact (IH _ _ H).
Qed.

Hypothesis unique_entries : NoDup (map filename (index self)).
Hypothesis unique_notes : NoDup (note_keys fs (dir self)).
Hypothesis entries_are_notes :
  forall d, In d (index self) -> on_disk fs self d = true ->
            In (filename d) (note_keys fs (dir self)).

(** After a synchronisation the keys of the index are the file names of
    the notes. *)
Lemma update_index_keys (idx' : Index) :
  update_index fs self false = Ok idx' ->
  Permutation (map filename idx') (note_keys fs (dir self)).
Proof.
  unfold update_index.
  destruct (update_index_existing fs self (index self) (writer (index self)) [])
    as [[w1 indexed]|e] eqn:E1; cbn [bind]; [|discriminate].
  unfold _get_notes.
  destruct (_get_notes_loop self (glob_md (dir self) fs)) as [notes|e] eqn:E2;
    cbn [bind]; [|discriminate].
  destruct (update_index_new fs self notes indexed w1) as [w2|e] eqn:E3;
    cbn [bind]; [|discriminate].
  intros H. injection H as <-.
  apply get_notes_keys in E2. fold (note_keys fs (dir self)) in E2.
  apply existing_spec in E1 as [S1 [[U [A1 KU]] [I1 M1]]].
  2:{ intros d Hd Hs n. apply note_key_canonical.
      apply entries_are_notes; [assumption|].
      unfold stale in Hs. now apply andb_true_iff in Hs as [Hs _]. }
  apply new_spec in E3 as [V [A2 [KV [S2 M2]]]].
  cbn [writer segments added mergetype_clear] in *.
  unfold commit. rewrite M2, M1, A2, A1, S2, S1. cbn [app].
  rewrite E2 in KV.
  assert (Hkeep : filter (fun d => negb (str_in (filename d) (map filename V)))
                    (filter (fun d => negb (str_in (filename d)
                       (map filename (filter (fun d => negb (fresh fs self d))
                                             (index self)))))
                       (index self)) =
                  filter (fresh fs self) (index self)).
  { rewrite filter_filter. apply filter_ext_in. intros d Hd.
    destruct (fresh fs self d) eqn:Ef.
    - assert (G1 : str_in (filename d)
                (map filename (filter (fun d => negb (fresh fs self d)) (index self)))
                = false).
      { apply str_in_not_In. intros Hin.
        apply in_map_iff in Hin as [d' [Ek Hd']].
        apply filter_In in Hd' as [Hd' Hf'].
        rewrite (NoDup_key_inj filename _ _ _ unique_entries Hd' Hd Ek) in Hf'.
        rewrite Ef in Hf'. discriminate. }
      assert (G2 : str_in (filename d) (map filename V) = false).
      { apply str_in_not_In. rewrite KV. intros Hin.
        apply filter_In in Hin as [_ Hin].
        apply negb_true_iff, str_in_not_In in Hin. apply Hin.
        apply I1. right. apply in_map. apply filter_In. split; [assumption|].
        unfold fresh in Ef. now apply andb_true_iff in Ef as [Ef _]. }
      now rewrite G1, G2.
    - assert (G1 : str_in (filename d)
                (map filename (filter (fun d => negb (fresh fs self d)) (index self)))
                = true).
      { apply str_in_In, in_map, filter_In. split; [assumption|].
        now rewrite Ef. }
      now rewrite G1. }
  rewrite Hkeep, !map_app, KU, KV, app_assoc, <- map_app.
  assert (Hp : Permutation (filter (fresh fs self) (index self) ++ filter (stale fs self) (index self))
                           (filter (on_disk fs self) (index self))).
  { unfold fresh, stale.
    rewrite <- (filter_filter (unchanged fs self) (on_disk fs self)),
            <- (filter_filter (fun d => negb (unchanged fs self d)) (on_disk fs self)).
    apply perm_partition. }
  rewrite (Permutation_map filename Hp).
  apply perm_known_then_new.
  - now apply kept_keys_distinct.
  - exact unique_notes.
  - intros k Hk. apply in_map_iff in Hk as [d [<- Hd]].
    apply filter_In in Hd as [Hd Ho]. now apply entries_are_notes.
  - intros k. rewrite I1. simpl. tauto.
Qed.

End SyncFacts.

(* ------------------------------------------------------------------ *)
(** ** Checks that compute *)

Lemma all_distinct_NoDup (l : list str) : all_distinct l = true -> NoDup l.
Proof.
  induction l as [|x l IH]; simpl; intros H; constructor.
  - apply andb_true_iff in H as [H _].
    now apply negb_true_iff, str_in_not_In in H.
  - apply andb_true_iff in H as [_ H]. now apply IH.
Qed.

Lemma NoDup_all_distinct (l : list str) : NoDup l -> all_distinct l = true.
Proof.
  induction 1 as [|x l Hx N IH]; simpl; [reflexivity|].
  rewrite IH, andb_true_r. now apply negb_true_iff, str_in_not_In.
Qed.

Lemma entries_are_notes_b_ok (fs : FS) (self : Flatnotes) :
  entries_are_notes_b fs self = true ->
  forall d, In d (index self) -> on_disk fs self d = true ->
            In (filename d) (note_keys fs (dir self)).
Proof.
  unfold entries_are_notes_b. rewrite forallb_forall. intros H d Hd Ho.
  specialize (H d Hd). rewrite Ho in H. now apply str_in_In.
Qed.

(* ------------------------------------------------------------------ *)
(** ** The number of entries after a synchronisation *)

(** C1 fails when two note files have the same name: the index is built
    from [notes/a.md]; then [notes/sub/a.md] appears.  Both notes have the
    key [a.md], which the first loop has marked as seen, so the index keeps
    one entry while the directory holds two note files. *)
Lemma update_index_count_same_name :
  update_index fs_a (mkFlatnotes (lit "notes") []) false = Ok idx_a /\
  update_index fs_a_twice (mkFlatnotes (lit "notes") idx_a) false = Ok idx_a /\
  List.length idx_a <> List.length (glob_md (lit "notes") fs_a_twice).
Proof. repeat split. vm_compute. discriminate. Qed.

(** C1, amended: when the note files have pairwise distinct file names, the
    index holds one entry per key, and every entry whose file exists right
    below the notes directory is the entry of one of the notes, the index
    has as many entries after [update_index()] as there are note files. *)
Theorem update_index_count (fs : FS) (self : Flatnotes) (idx' : Index) :
  NoDup (note_keys fs (dir self)) ->
  NoDup (map filename (index self)) ->
  (forall d, In d (index self) -> on_disk fs self d = true ->
             In (filename d) (note_keys fs (dir self))) ->
  update_index fs self false = Ok idx' ->
  List.length idx' = List.length (glob_md (dir self) fs).
Proof.
  intros Hn He Hd H.
  pose proof (update_index_keys fs self He Hn Hd idx' H) as P.
  apply Permutation_length in P.
  unfold note_keys in P. now rewrite !length_map in P.
Qed.

Lemma update_index_count_witness :
  update_index fs_three notes_three false = Ok idx_after /\
  List.length idx_after = List.length (glob_md (dir notes_three) fs_three).
Proof.
  split; [reflexivity|].
  apply (update_index_count fs_three notes_three idx_after).
  - apply all_distinct_NoDup. vm_compute. reflexivity.
  - apply all_distinct_NoDup. vm_compute. reflexivity.
  - apply entries_are_notes_b_ok. vm_compute. reflexivity.
  - reflexivity.
Defined.

(* ------------------------------------------------------------------ *)
(** ** One entry per key *)


Lemma filter_other_keys (k : str) (l : list Doc) :
  ~ In k (map filename l) ->
  filter (fun x => negb (str_eqb (filename x) k)) l = l.
Proof.
  induction l as [|x l IH]; simpl; [reflexivity|].
  intros H. destruct (str_eqb (filename x) k) eqn:E.
  - apply str_eqb_eq in E. exfalso. apply H. now left.
  - simpl. f_equal. apply IH. intros Hin. apply H. now right.
Qed.

Lemma filter_key_length (k : str) (l : list Doc) :
  NoDup (map filename l) -> In k (map filename l) ->
  S (List.length (filter (fun x => negb (str_eqb (filename x) k)) l)) =
  List.length l.
Proof.
  induction l as [|x l IH]; simpl; [contradiction|].
  intros N Hk. apply NoDup_cons_iff in N as [Hx N].
  destruct (str_eqb (filename x) k) eqn:E; simpl.
  - apply str_eqb_eq in E. subst k. now rewrite (filter_other_keys _ _ Hx).
  - f_equal. apply IH; [assumption|].
    destruct Hk as [Hk | Hk]; [|assumption].
    apply str_eqb_neq in E. contradiction.
Qed.

Lemma filter_key_absent (k : str) (l : list Doc) :
  ~ In k (map filename (filter (fun x => negb (str_eqb (filename x) k)) l)).
Proof.
  intros H. apply in_map_iff in H as [d [E Hd]].
  apply filter_In in Hd as [_ Hd].
  apply negb_true_iff, str_eqb_neq in Hd. contradiction.
Qed.



(* ------------------------------------------------------------------ *)
(** ** Searches on the sample engine *)

Lemma search_order_witness :
  demo_search (lit "*") (lit "title") (lit "asc") None = Ok (idx_after, by_title) /\
  demo_search (lit "*") (lit "title") (lit "desc") None =
    Ok (idx_after, rev by_title) /\
  demo_search (lit "*") (lit "score") (lit "desc") None = Ok (idx_after, by_score) /\
  StronglySorted score_ge by_score.
Proof.
  pose proof (search_order str demo_parse demo_matches demo_score demo_terms
                demo_highlights fs_three notes_three (lit "*")) as [H1 [H2 _]].
  assert (E1 : demo_search (lit "*") (lit "title") (lit "asc") None =
               Ok (idx_after, by_title)) by reflexivity.
  assert (E2 : demo_search (lit "*") (lit "score") (lit "desc") None =
               Ok (idx_after, by_score)) by reflexivity.
  split; [exact E1|]. split; [exact (H1 idx_after by_title E1)|].
  split; [exact E2|].
  apply (H2 (lit "score") None idx_after by_score); [discriminate.. | exact E2].
Defined.


(* ================================================================== *)
(** * Properties of the rest of the source *)

(** ** Substrings *)

Lemma starts_with_iff (p s : str) :
  starts_with p s = true <-> exists post, s = p ++ post.
Proof.
  revert s. induction p as [|x p IH]; intros s; simpl.
  - split; [intros _; now exists s | reflexivity].
  - destruct s as [|y s].
    + split; [discriminate | intros [post E]; discriminate].
    + rewrite andb_true_iff, IH. split.
      * intros [E [post ->]]. apply Ascii.eqb_eq in E. subst. now exists post.
      * intros [post E]. injection E as -> ->. split;
          [apply Ascii.eqb_refl | now exists post].
Qed.

Lemma contains_iff (needle hay : str) :
  contains needle hay = true <-> exists pre post, hay = pre ++ needle ++ post.
Proof.
  induction hay as [|y hay IH].
  - simpl. rewrite orb_false_r, starts_with_iff. split.
    + intros [post E]. now exists [], post.
    + intros [pre [post E]]. destruct pre; [now exists post|discriminate].
  - cbn [contains]. rewrite orb_true_iff, starts_with_iff, IH. split.
    + intros [[post E] | [pre [post E]]].
      * now exists [], post.
      * exists (y :: pre), post. now rewrite E.
    + intros [[|z pre] [post E]].
      * left. now exists post.
      * right. injection E as -> E. now exists pre, post.
Qed.

Lemma contains_single (c : ascii) (t : str) : contains [c] t = true <-> In c t.
Proof.
  rewrite contains_iff. split.
  - intros [pre [post ->]]. apply in_or_app. right. now left.
  - intros H. apply in_split in H as [pre [post ->]]. now exists pre, post.
Qed.

(* ------------------------------------------------------------------ *)
(** ** [Note._is_valid_title] and [Note.__init__] *)


(** X2: a note is built with the title trimmed of the white space around
    it, and building a note again from the title of a note gives that very
    note. *)
Theorem Note_init_normalises (title : str) (n : Note) :
  Note_init title = Ok n ->
  Note_title n = strip title /\
  no_outer_space (Note_title n) /\
  Note_init (Note_title n) = Ok n.
Proof.
  unfold Note_init, Note_title.
  destruct (negb (_is_valid_title (strip title))) eqn:E; [discriminate|].
  intros H. injection H as <-. cbn [_title].
  split; [reflexivity|]. split.
  - now destruct (strip_spec title) as [_ [_ [_ [_ [_ H]]]]].
  - now rewrite strip_idem, E.
Qed.

Lemma Note_init_normalises_witness :
  Note_init (lit "  shopping list ") = Ok {| _title := lit "shopping list"; subdirs := [] |} /\
  Note_init (lit "shopping list") = Ok {| _title := lit "shopping list"; subdirs := [] |}.
Proof.
  split; [reflexivity|].
  exact (proj2 (proj2 (Note_init_normalises (lit "  shopping list ") _ eq_refl))).
Defined.

(* ------------------------------------------------------------------ *)
(** ** [Note.filepath], and the note store under the operations of [Note] *)

Lemma find_file_Some (fs : FS) (p : str) (f : File) :
  find_file fs p = Some f -> In f fs /\ f_path f = p.
Proof.
  unfold find_file. intros H. apply find_some in H as [H1 H2].
  split; [assumption | now apply str_eqb_eq].
Qed.

Lemma path_exists_iff (fs : FS) (p : str) :
  path_exists fs p = true <-> In p (map f_path fs).
Proof.
  unfold path_exists. split.
  - destruct (find_file fs p) as [f|] eqn:E; [|discriminate].
    intros _. apply find_file_Some in E as [H <-]. now apply in_map.
  - intros H. apply in_map_iff in H as [f [E Hf]].
    destruct (find_file fs p) as [g|] eqn:F; [reflexivity|].
    unfold find_file in F. apply (find_none _ _ F) in Hf.
    apply str_eqb_neq in Hf. contradiction.
Qed.

Lemma glob_md_exists (fs : FS) (dir p : str) :
  In p (glob_md dir fs) -> path_exists fs p = true.
Proof.
  unfold glob_md. intros H. apply path_exists_iff.
  apply in_map_iff in H as [f [E Hf]]. apply filter_In in Hf as [Hf _].
  rewrite <- E. now apply in_map.
Qed.

Lemma last_In_or_default {A : Type} (l : list A) (d : A) :
  l = [] \/ In (last l d) l.
Proof.
  induction l as [|x l IH]; [now left|]. right.
  destruct IH as [-> | IH]; [now left|].
  destruct l as [|y l]; [contradiction|]. right. exact IH.
Qed.

Lemma Note_filepath_cases (fs : FS) (dir : str) (n : Note) :
  Note_filepath fs dir n = [] \/
  (In (Note_filepath fs dir n) (glob_md dir fs) /\
   contains (Note_filename n) (Note_filepath fs dir n) = true).
Proof.
  unfold Note_filepath, filepath_loop. rewrite filepath_loop_last.
  destruct (last_In_or_default
              (filter (contains (Note_filename n)) (glob_md dir fs)) [])
    as [-> | H]; [now left|].
  right. now apply filter_In in H.
Qed.



(** X4: [Note.__init__] with [new=True] never creates a file.  When the
    title is valid, either some markdown path has the file name inside it
    and [filepath] exists, which raises [FileExistsError], or [filepath] is
    the empty string, which [open] refuses with [FileNotFoundError]. *)
Theorem Note_init_new_never_creates (fs : FS) (dir title : str) (now : Z) :
  Note_init_new fs dir title now = NotCreated (Raised InvalidTitleError) \/
  Note_init_new fs dir title now = NotCreated FileExistsError \/
  Note_init_new fs dir title now = NotCreated (Raised FileNotFoundError).
Proof.
  unfold Note_init_new.
  destruct (negb (_is_valid_title (strip title))); [now left|]. right.
  set (n := {| _title := strip title; subdirs := [] |}).
  destruct (path_exists fs (Note_filepath fs dir n)) eqn:E; [now left|]. right.
  unfold write_file. rewrite E.
  destruct (Note_filepath_cases fs dir n) as [-> | [H _]]; [reflexivity|].
  apply glob_md_exists in H. congruence.
Qed.

(** Files that keep their path keep the listing and the resolution. *)
Lemma glob_md_same_paths (dir : str) (u : File -> File) (fs : FS) :
  (forall f, f_path (u f) = f_path f) ->
  glob_md dir (map u fs) = glob_md dir fs.
Proof.
  intros H. unfold glob_md. induction fs as [|f fs IH]; [reflexivity|].
  cbn [map filter]. rewrite H.
  destruct (glob_match dir (f_path f)); cbn [map]; now rewrite ?H, IH.
Qed.

Lemma find_file_same_paths (u : File -> File) (fs : FS) (q : str) :
  (forall f, f_path (u f) = f_path f) ->
  find_file (map u fs) q = option_map u (find_file fs q).
Proof.
  intros H. unfold find_file. induction fs as [|f fs IH]; [reflexivity|].
  cbn [map find]. rewrite H. now destruct (str_eqb (f_path f) q).
Qed.



Lemma find_file_without (fs : FS) (p q : str) :
  q <> p ->
  find_file (filter (fun f => negb (str_eqb (f_path f) p)) fs) q =
  find_file fs q.
Proof.
  intros H. unfold find_file. induction fs as [|f fs IH]; [reflexivity|].
  cbn [filter find].
  destruct (str_eqb (f_path f) p) eqn:E; cbn [negb find].
  - apply str_eqb_eq in E.
    destruct (str_eqb (f_path f) q) eqn:F; [|exact IH].
    apply str_eqb_eq in F. congruence.
  - now rewrite IH.
Qed.

Lemma path_gone (fs : FS) (p : str) :
  path_exists (filter (fun f => negb (str_eqb (f_path f) p)) fs) p = false.
Proof.
  destruct (path_exists _ p) eqn:E; [|reflexivity].
  apply path_exists_iff, in_map_iff in E as [f [E Hf]].
  apply filter_In in Hf as [_ Hf].
  apply negb_true_iff, str_eqb_neq in Hf. contradiction.
Qed.

Lemma glob_md_without (dir : str) (fs : FS) (p : str) :
  glob_md dir (filter (fun f => negb (str_eqb (f_path f) p)) fs) =
  filter (fun q => negb (str_eqb q p)) (glob_md dir fs).
Proof.
  unfold glob_md. induction fs as [|f fs IH]; [reflexivity|].
  cbn [filter].
  destruct (str_eqb (f_path f) p) eqn:E; cbn [negb filter];
    destruct (glob_match dir (f_path f)); cbn [map filter];
    rewrite ?E; cbn [negb]; now rewrite IH.
Qed.

(** X6: deleting a note removes the file it resolves to and nothing else:
    that path no longer exists nor is listed, the other markdown files are
    listed as before, and every other path holds the file it held. *)
Theorem Note_delete_removes (fs fs' : FS) (dir : str) (n : Note) :
  Note_delete fs dir n = Ok fs' ->
  path_exists fs' (Note_filepath fs dir n) = false /\
  glob_md dir fs' =
    filter (fun q => negb (str_eqb q (Note_filepath fs dir n))) (glob_md dir fs) /\
  (forall q, q <> Note_filepath fs dir n -> find_file fs' q = find_file fs q).
Proof.
  unfold Note_delete, os_remove.
  destruct (path_exists fs (Note_filepath fs dir n)); [|discriminate].
  intros H. injection H as <-. split; [apply path_gone|].
  split; [apply glob_md_without|]. intros q Hq. now apply find_file_without.
Qed.

Lemma Note_delete_removes_witness :
  Note_delete fs_three (lit "notes") note_c =
    Ok [ mkFile (lit "notes/a.md") 5 (lit "alpha #x");
         mkFile (lit "notes/sub/b.md") 6 (lit "beta");
         mkFile (lit "notes/.flatnotes/_MAIN_3.toc") 1 [] ] /\
  path_exists
    [ mkFile (lit "notes/a.md") 5 (lit "alpha #x");
      mkFile (lit "notes/sub/b.md") 6 (lit "beta");
      mkFile (lit "notes/.flatnotes/_MAIN_3.toc") 1 [] ]
    (Note_filepath fs_three (lit "notes") note_c) = false.
Proof.
  split; [reflexivity|].
  exact (proj1 (Note_delete_removes fs_three _ (lit "notes") note_c eq_refl)).
Defined.

Lemma find_file_renamed (fs : FS) (src dst : str) :
  src <> dst ->
  find_file
    (map (fun f => if str_eqb (f_path f) src
                   then mkFile dst (f_mtime f) (f_content f) else f)
         (filter (fun f => negb (str_eqb (f_path f) dst)) fs)) dst =
  option_map (fun f => mkFile dst (f_mtime f) (f_content f)) (find_file fs src).
Proof.
  intros H. unfold find_file. induction fs as [|f fs IH]; [reflexivity|].
  cbn [filter find].
  destruct (str_eqb (f_path f) dst) eqn:D; cbn [negb map find].
  - apply str_eqb_eq in D.
    destruct (str_eqb (f_path f) src) eqn:S; [|exact IH].
    apply str_eqb_eq in S. congruence.
  - destruct (str_eqb (f_path f) src) eqn:S; cbn [f_path].
    + now rewrite str_eqb_refl.
    + now rewrite D.
Qed.

Lemma find_file_not_renamed (fs : FS) (src dst q : str) :
  q <> src -> q <> dst ->
  find_file
    (map (fun f => if str_eqb (f_path f) src
                   then mkFile dst (f_mtime f) (f_content f) else f)
         (filter (fun f => negb (str_eqb (f_path f) dst)) fs)) q =
  find_file fs q.
Proof.
  intros Hs Hd. unfold find_file. induction fs as [|f fs IH]; [reflexivity|].
  cbn [filter find].
  destruct (str_eqb (f_path f) dst) eqn:D; cbn [negb map find].
  - apply str_eqb_eq in D.
    destruct (str_eqb (f_path f) q) eqn:Q; [|exact IH].
    apply str_eqb_eq in Q. congruence.
  - destruct (str_eqb (f_path f) src) eqn:S; cbn [f_path].
    + apply str_eqb_eq in S.
      assert (E1 : str_eqb dst q = false) by (apply str_eqb_neq; congruence).
      assert (E2 : str_eqb (f_path f) q = false) by (apply str_eqb_neq; congruence).
      now rewrite E1, E2.
    + now rewrite IH.
Qed.

Lemma path_renamed_away (fs : FS) (src dst : str) :
  src <> dst ->
  path_exists
    (map (fun f => if str_eqb (f_path f) src
                   then mkFile dst (f_mtime f) (f_content f) else f)
         (filter (fun f => negb (str_eqb (f_path f) dst)) fs)) src = false.
Proof.
  intros H.
  destruct (path_exists _ src) eqn:E; [|reflexivity].
  apply path_exists_iff in E. rewrite map_map in E.
  apply in_map_iff in E as [f [E _]].
  destruct (str_eqb (f_path f) src) eqn:S; cbn [f_path] in E.
  - congruence.
  - apply str_eqb_neq in S. contradiction.
Qed.

(** X7: renaming a note as the constructor builds it, with no
    subdirectory set, moves the file it resolves to, with its content and
    modification time, to the new file name right below the notes
    directory, wherever the file was; the new title is trimmed; the old
    path is gone unless it is the new one; every other path holds the file
    it held. *)
Theorem Note_set_title_moves (fs fs' : FS) (dir : str) (n n' : Note)
    (new_title : str) :
  subdirs n = [] ->
  Note_set_title fs dir n new_title = Ok (n', fs') ->
  Note_title n' = strip new_title /\
  subdirs n' = [] /\
  read_file fs' (path_join (path_join dir []) (Note_filename n')) =
    read_file fs (Note_filepath fs dir n) /\
  getmtime fs' (path_join (path_join dir []) (Note_filename n')) =
    getmtime fs (Note_filepath fs dir n) /\
  (Note_filepath fs dir n <>
     path_join (path_join dir []) (Note_filename n') ->
   path_exists fs' (Note_filepath fs dir n) = false) /\
  (forall q, q <> Note_filepath fs dir n ->
             q <> path_join (path_join dir []) (Note_filename n') ->
             find_file fs' q = find_file fs q).
Proof.
  intros Hsub. unfold Note_set_title. rewrite Hsub.
  destruct (negb (_is_valid_title (strip new_title))); [discriminate|].
  set (src := Note_filepath fs dir n).
  set (dst := path_join (path_join dir []) (strip new_title ++ MARKDOWN_EXT)).
  unfold os_rename.
  destruct (path_exists fs src) eqn:E; cbn [negb bind]; [|discriminate].
  destruct (str_eqb src dst) eqn:S; cbn [bind]; intros H; injection H as <- <-;
    unfold Note_title, Note_filename; cbn [_title subdirs]; fold dst.
  - apply str_eqb_eq in S. rewrite <- S.
    repeat split; try reflexivity. intros H. contradiction.
  - apply str_eqb_neq in S. unfold read_file, getmtime.
    rewrite (find_file_renamed fs src dst S).
    unfold path_exists in E. destruct (find_file fs src) as [f|]; [|discriminate].
    cbn [option_map f_content f_mtime].
    repeat split; try reflexivity.
    + intros _. now apply path_renamed_away.
    + intros q Hs Hd. now apply find_file_not_renamed.
Qed.

Lemma Note_set_title_moves_witness :
  Note_set_title fs_three (lit "notes") note_c (lit " d ") =
    Ok ({| _title := lit "d"; subdirs := [] |},
        [ mkFile (lit "notes/a.md") 5 (lit "alpha #x");
          mkFile (lit "notes/d.md") 9 (lit "gamma #new");
          mkFile (lit "notes/sub/b.md") 6 (lit "beta");
          mkFile (lit "notes/.flatnotes/_MAIN_3.toc") 1 [] ]) /\
  read_file
    [ mkFile (lit "notes/a.md") 5 (lit "alpha #x");
      mkFile (lit "notes/d.md") 9 (lit "gamma #new");
      mkFile (lit "notes/sub/b.md") 6 (lit "beta");
      mkFile (lit "notes/.flatnotes/_MAIN_3.toc") 1 [] ]
    (lit "notes/d.md") = Ok (lit "gamma #new").
Proof.
  split; [reflexivity|].
  exact (proj1 (proj2 (proj2
           (Note_set_title_moves fs_three _ (lit "notes") note_c _ (lit " d ")
              eq_refl eq_refl)))).
Defined.

(* ------------------------------------------------------------------ *)
(** ** [Flatnotes.extract_tags]: what a tag is and what is removed *)

Lemma lower_char_word (c : ascii) : is_word (lower_char c) = is_word c.
Proof. destruct c as [[] [] [] [] [] [] [] []]; reflexivity. Qed.

Lemma lower_char_idem (c : ascii) : lower_char (lower_char c) = lower_char c.
Proof. destruct c as [[] [] [] [] [] [] [] []]; reflexivity. Qed.

Lemma lower_word (m : str) : forallb is_word (lower m) = forallb is_word m.
Proof.
  induction m as [|c m IH]; [reflexivity|].
  simpl. now rewrite lower_char_word, IH.
Qed.

Lemma lower_idem (m : str) : lower (lower m) = lower m.
Proof.
  induction m as [|c m IH]; [reflexivity|].
  simpl. now rewrite lower_char_idem, IH.
Qed.

(** Every match of [TAGS_RE] is a run of word characters. *)
Lemma pieces_TAGS_RE_found (a b : str) (skip : nat) :
  Forall (fun pc => match pc with
                    | Keep _ => True
                    | Found m => m <> [] /\ forallb is_word m = true
                    end)
         (pieces TAGS_RE b a skip).
Proof.
  revert b skip. induction a as [|x a IH]; intros b skip.
  - cbn [pieces]. rewrite TAGS_RE_match_at, andb_false_r.
    destruct skip; constructor.
  - cbn [pieces]. destruct skip as [|k]; [|apply IH].
    rewrite TAGS_RE_match_at.
    destruct (hash_at_boundary b && negb (is_empty (fst (span is_word (x :: a)))) &&
              boundary_after (snd (span is_word (x :: a)))) eqn:C.
    + pose proof (span_all is_word (x :: a)) as Hw.
      pose proof (span_app is_word (x :: a)) as Ha.
      destruct (fst (span is_word (x :: a))) as [|y w] eqn:E.
      * rewrite andb_false_r in C. discriminate.
      * assert (Hf : firstn (S (List.length w)) (x :: a) = y :: w).
        { pose proof (f_equal (firstn (List.length (y :: w))) Ha) as Hf.
          rewrite firstn_app, Nat.sub_diag, firstn_all in Hf.
          cbn [firstn] in Hf. now rewrite app_nil_r in Hf. }
        cbn [List.length]. rewrite Hf.
        constructor; [|apply IH]. split; [discriminate | exact Hw].
    + constructor; [exact I | apply IH].
Qed.

Lemma re_findall_TAGS_RE (s m : str) :
  In m (re_findall TAGS_RE s) -> m <> [] /\ forallb is_word m = true.
Proof.
  unfold re_findall. intros H. apply in_flat_map in H as [pc [Hp Hm]].
  pose proof (pieces_TAGS_RE_found s [] 0) as F.
  rewrite Forall_forall in F. specialize (F pc Hp).
  destruct pc as [c|m']; [contradiction|].
  destruct Hm as [<- | []]. exact F.
Qed.

(** X8: the tags that [extract_tags] returns are pairwise distinct, and
    each is a non-empty run of word characters in lower case; so none holds
    a [#] or white space. *)
Theorem extract_tags_tags (content c : str) (ts : list str) :
  extract_tags content = Ok (c, ts) ->
  NoDup ts /\
  Forall (fun t => t <> [] /\ forallb is_word t = true /\ lower t = t) ts.
Proof.
  unfold extract_tags, re_extract, try_except, set_of.
  intros H. injection H as _ <-. split; [apply NoDup_nodup|].
  rewrite Forall_forall. intros t Ht.
  apply nodup_In, in_map_iff in Ht as [m [<- Hm]].
  apply re_findall_TAGS_RE in Hm as [Hne Hw].
  split; [|split].
  - destruct m; [congruence | discriminate].
  - now rewrite lower_word.
  - apply lower_idem.
Qed.

Lemma extract_tags_tags_witness :
  extract_tags (lit "#Work notes #work #To_Do1 x") =
    Ok (lit "# notes # # x", [lit "work"; lit "to_do1"]) /\
  NoDup [lit "work"; lit "to_do1"].
Proof.
  split; [reflexivity|].
  exact (proj1 (extract_tags_tags (lit "#Work notes #work #To_Do1 x") _ _ eq_refl)).
Defined.

(** The subject is the concatenation of its pieces. *)
Lemma pieces_rebuild (r : regex) (a b : str) (skip : nat) :
  flat_map (fun pc => match pc with Keep c => [c] | Found m => m end)
           (pieces r b a skip) = skipn skip a.
Proof.
  revert b skip. induction a as [|x a IH]; intros b skip.
  - cbn [pieces]. destruct skip; [|reflexivity].
    destruct (match_at r b []); reflexivity.
  - cbn [pieces]. destruct skip as [|k]; [|cbn [skipn]; apply IH].
    destruct (match_at r b (x :: a)) as [[|n]|].
    + cbn [flat_map app]. now rewrite IH.
    + cbn [flat_map]. rewrite IH.
      exact (firstn_skipn (S n) (x :: a)).
    + cbn [flat_map app]. now rewrite IH.
Qed.

Lemma filter_all_word (m : str) :
  forallb is_word m = true -> filter nonword m = [].
Proof.
  induction m as [|c m IH]; [reflexivity|].
  simpl. intros H. apply andb_true_iff in H as [H1 H2].
  unfold nonword at 1. rewrite H1. now apply IH.
Qed.



(* ------------------------------------------------------------------ *)
(** ** [Flatnotes.pre_process_search_term], continued *)

Lemma strip_In (s : str) (x : ascii) : In x (strip s) -> In x s.
Proof.
  destruct (strip_spec s) as [l [r [E _]]]. intros H.
  rewrite E. apply in_or_app. right. apply in_or_app. now left.
Qed.

Lemma hashtag_has_hash (tok : str) : is_hashtag tok = true -> In "#"%char tok.
Proof.
  destruct tok as [|x tok]; [discriminate|]. simpl. intros H.
  apply andb_true_iff in H as [H _]. apply andb_true_iff in H as [H _].
  apply Ascii.eqb_eq in H. now left.
Qed.

Lemma rewrite_tokens_no_hash (s tok : str) :
  ~ In "#"%char tok -> ~ In "#"%char s -> rewrite_tokens tok s = rev tok ++ s.
Proof.
  revert tok. induction s as [|c s IH]; intros tok Ht Hs.
  - cbn [rewrite_tokens]. rewrite app_nil_r. unfold rewrite_token.
    destruct (is_hashtag (rev tok)) eqn:E; [|reflexivity].
    apply hashtag_has_hash, in_rev in E. contradiction.
  - cbn [rewrite_tokens]. destruct (is_space c).
    + rewrite (IH []); [| intros [] | intros H; apply Hs; now right].
      unfold rewrite_token.
      destruct (is_hashtag (rev tok)) eqn:E; [|reflexivity].
      apply hashtag_has_hash, in_rev in E. contradiction.
    + rewrite IH.
      * cbn [rev]. now rewrite <- app_assoc.
      * intros [H | H]; [apply Hs; now left | contradiction].
      * intros H. apply Hs. now right.
Qed.

(** X10: a search term without a [#] is only trimmed. *)
Theorem pre_process_no_hash (term : str) :
  ~ In "#"%char term -> pre_process_search_term term = strip term.
Proof.
  intros H. rewrite pre_process_tokens.
  apply (rewrite_tokens_no_hash (strip term) []); [intros [] |].
  intros Hs. apply H. now apply strip_In.
Qed.

Lemma pre_process_no_hash_witness :
  pre_process_search_term (lit "  milk AND title:eggs ") = lit "milk AND title:eggs".
Proof.
  apply (pre_process_no_hash (lit "  milk AND title:eggs ")).
  vm_compute. intuition discriminate.
Defined.

Lemma rewrite_token_nonspace (t : str) :
  forallb nonspace t = true -> forallb nonspace (rewrite_token t) = true.
Proof.
  intros H. unfold rewrite_token. destruct (is_hashtag t); [|exact H].
  destruct t as [|x t]; [reflexivity|].
  simpl in H. apply andb_true_iff in H as [_ H]. cbn [tl].
  rewrite forallb_app. now rewrite H.
Qed.

Lemma rewrite_token_idem (t : str) :
  rewrite_token (rewrite_token t) = rewrite_token t.
Proof.
  unfold rewrite_token. destruct (is_hashtag t) eqn:E.
  - reflexivity.
  - now rewrite E.
Qed.

Lemma rewrite_token_nil (t : str) : rewrite_token t = [] -> t = [].
Proof.
  unfold rewrite_token. destruct (is_hashtag t); [discriminate | trivial].
Qed.

Lemma rewrite_tokens_token (t rest : str) :
  forallb nonspace t = true ->
  match rest with [] => True | x :: _ => nonspace x = false end ->
  rewrite_tokens [] (t ++ rest) =
  rewrite_token t ++
  match rest with [] => [] | c :: rest' => c :: rewrite_tokens [] rest' end.
Proof.
  intros Ht Hr. rewrite (rewrite_tokens_unfold (t ++ rest) []).
  now rewrite (span_exact nonspace t rest Ht Hr).
Qed.

Lemma rewrite_tokens_idem (n : nat) :
  forall s, List.length s <= n ->
            rewrite_tokens [] (rewrite_tokens [] s) = rewrite_tokens [] s.
Proof.
  induction n as [|n IH]; intros s Hl.
  - destruct s; [reflexivity | simpl in Hl; lia].
  - rewrite (rewrite_tokens_unfold s []). cbn [rev app].
    pose proof (span_all nonspace s) as Ht.
    pose proof (nonspace_rest_boundary s) as Hr.
    pose proof (span_snd_length nonspace s) as Hlen.
    set (t := fst (span nonspace s)) in *.
    destruct (snd (span nonspace s)) as [|c rest].
    + rewrite (rewrite_tokens_token (rewrite_token t) []
                 (rewrite_token_nonspace _ Ht) I).
      now rewrite rewrite_token_idem.
    + rewrite (rewrite_tokens_token (rewrite_token t) (c :: rewrite_tokens [] rest)
                 (rewrite_token_nonspace _ Ht) (boundary_not_nonspace _ Hr)).
      rewrite rewrite_token_idem. f_equal. f_equal.
      apply IH. simpl in Hlen. lia.
Qed.

Lemma rewrite_tokens_nonempty (s tok : str) :
  rewrite_tokens tok s = [] -> tok = [] /\ s = [].
Proof.
  revert tok. induction s as [|c s IH]; intros tok; cbn [rewrite_tokens].
  - intros H. apply rewrite_token_nil in H.
    split; [|reflexivity].
    apply (f_equal (@rev ascii)) in H. now rewrite rev_involutive in H.
  - destruct (is_space c).
    + intros H. apply app_eq_nil in H as [_ H]. discriminate.
    + intros H. apply IH in H as [H _]. discriminate.
Qed.

Lemma rewrite_tokens_head (s : str) :
  match s with [] => True | x :: _ => is_space x = false end ->
  match rewrite_tokens [] s with [] => True | x :: _ => is_space x = false end.
Proof.
  intros H. rewrite (rewrite_tokens_unfold s []). cbn [rev app].
  pose proof (span_all nonspace s) as Ht.
  assert (Hne : s <> [] -> fst (span nonspace s) <> []).
  { destruct s as [|x s]; [congruence|]. intros _. cbn [span].
    unfold nonspace at 1. rewrite H. discriminate. }
  destruct s as [|x s]; [exact I|].
  assert (Hne' : fst (span nonspace (x :: s)) <> []) by (apply Hne; discriminate).
  pose proof (rewrite_token_nonspace _ Ht) as Hn.
  destruct (rewrite_token (fst (span nonspace (x :: s)))) as [|y w] eqn:E.
  - apply rewrite_token_nil in E. contradiction.
  - cbn [app]. simpl in Hn. apply andb_true_iff in Hn as [Hn _].
    unfold nonspace in Hn. destruct (is_space y); [discriminate | reflexivity].
Qed.

Lemma last_nonspace (t : str) :
  forallb nonspace t = true ->
  match rev t with [] => True | x :: _ => is_space x = false end.
Proof.
  intros H. destruct (rev t) as [|x r] eqn:E; [exact I|].
  assert (Hx : In x t) by (apply in_rev; rewrite E; now left).
  rewrite forallb_forall in H. specialize (H x Hx).
  unfold nonspace in H. now destruct (is_space x).
Qed.

Lemma rewrite_tokens_last (n : nat) :
  forall s, List.length s <= n ->
    match rev s with [] => True | x :: _ => is_space x = false end ->
    match rev (rewrite_tokens [] s) with
    | [] => True
    | x :: _ => is_space x = false
    end.
Proof.
  induction n as [|n IH]; intros s Hl Hs.
  - destruct s; [exact I | simpl in Hl; lia].
  - rewrite (rewrite_tokens_unfold s []). cbn [rev app].
    pose proof (span_all nonspace s) as Ht.
    pose proof (nonspace_rest_boundary s) as Hr.
    pose proof (span_snd_length nonspace s) as Hlen.
    pose proof (span_app nonspace s) as Hs'.
    set (t := fst (span nonspace s)) in *.
    destruct (snd (span nonspace s)) as [|c rest].
    + rewrite app_nil_r. apply last_nonspace. now apply rewrite_token_nonspace.
    + rewrite rev_app_distr. cbn [rev]. rewrite <- app_assoc.
      rewrite Hs', rev_app_distr in Hs. cbn [rev] in Hs. rewrite <- app_assoc in Hs.
      simpl in Hr.
      destruct rest as [|y rest].
      * cbn in Hs. congruence.
      * assert (Hy : match rev (y :: rest) with
                     | [] => True | x :: _ => is_space x = false end).
        { destruct (rev (y :: rest)) as [|z r] eqn:E; [exact I|]. exact Hs. }
        assert (Hl' : List.length (y :: rest) <= n) by (simpl in Hlen |- *; lia).
        pose proof (IH _ Hl' Hy) as G.
        destruct (rev (rewrite_tokens [] (y :: rest))) as [|z r] eqn:E.
        -- apply (f_equal (@rev ascii)) in E. rewrite rev_involutive in E.
           apply rewrite_tokens_nonempty in E as [_ E]. discriminate.
        -- exact G.
Qed.

(** X11: preprocessing a search term twice is preprocessing it once. *)
Theorem pre_process_idempotent (term : str) :
  pre_process_search_term (pre_process_search_term term) =
  pre_process_search_term term.
Proof.
  rewrite (pre_process_tokens (pre_process_search_term term)).
  rewrite (pre_process_tokens term).
  destruct (strip_spec term) as [_ [_ [_ [_ [_ [Hh Hl]]]]]].
  set (s := strip term) in *.
  assert (E : strip (rewrite_tokens [] s) = rewrite_tokens [] s).
  { unfold strip.
    rewrite (lstrip_id _ (rewrite_tokens_head s Hh)).
    unfold rstrip.
    rewrite (lstrip_id _ (rewrite_tokens_last _ s (Nat.le_refl _) Hl)).
    apply rev_involutive. }
  rewrite E. exact (rewrite_tokens_idem _ s (Nat.le_refl _)).
Qed.

(* ------------------------------------------------------------------ *)
(** ** [Flatnotes.search] and [SearchResult], continued *)

Lemma Forall2_In_l {A B : Type} (P : A -> B -> Prop) (l : list A) (rs : list B) :
  Forall2 P l rs -> forall x, In x l -> exists r, In r rs /\ P x r.
Proof.
  induction 1 as [|x0 r l rs H F IH]; intros x Hx; [contradiction|].
  destruct Hx as [<- | Hx].
  - exists r. split; [now left | assumption].
  - destruct (IH x Hx) as [r' [Hr' Hp]]. exists r'. split; [now right | assumption].
Qed.

Lemma Some_inj {A : Type} (x y : A) : Some x = Some y -> x = y.
Proof. intros H. now injection H. Qed.

Lemma Ok_inj {A : Type} (x y : A) : Ok x = Ok y -> x = y.
Proof. intros H. now injection H. Qed.

Lemma field_matched (f : str) (terms : list (str * str)) :
  str_in f (_get_matched_fields terms) = true <->
  exists t, In t terms /\ fst t = f.
Proof.
  unfold _get_matched_fields, set_of.
  rewrite str_in_In, nodup_In, in_map_iff. split.
  - intros [t [E H]]. now exists t.
  - intros [t [H E]]. now exists t.
Qed.

Lemma field_not_matched (f : str) (terms : list (str * str)) :
  str_in f (_get_matched_fields terms) = false <->
  forall t, In t terms -> fst t <> f.
Proof.
  pose proof (field_matched f terms) as M.
  destruct (str_in f (_get_matched_fields terms)); split.
  - discriminate.
  - intros H. destruct (proj1 M eq_refl) as [t [Ht E]]. now destruct (H t Ht).
  - intros _ t Ht E.
    assert (X : false = true) by (apply M; now exists t). discriminate.
  - reflexivity.
Qed.

Section SearchMore.

Variable Query : Type.
Variable parse : str -> result Query.
Variable matches : Query -> Doc -> bool.
Variable score : query Query -> Doc -> Z.
Variable matched_terms : query Query -> Doc -> list (str * str).
Variable highlights : fragmenter -> query Query -> Doc -> str -> str -> str.
Variable fs : FS.
Variable self : Flatnotes.

Let run := search parse matches score matched_terms highlights fs self.
Let init := SearchResult_init matched_terms highlights fs self.

Lemma init_note (h : Hit Query) (r : SearchResult) :
  init h = Ok r ->
  Note_init (strip_ext (filename (hit_fields h))) = Ok (sr_note r).
Proof.
  unfold init, SearchResult_init.
  destruct (Note_init _) as [note|e]; cbn [bind]; [|discriminate].
  match goal with |- bind ?m _ = _ -> _ => destruct m as [c|e] end;
    cbn [bind]; [|discriminate].
  intros H. now injection H as <-.
Qed.

Lemma collect_every (sortedby : option str) :
  forall docs n hs,
    collect matches score (Every Query) sortedby n docs = Ok hs ->
    map (@hit_fields Query) hs = docs.
Proof.
  induction docs as [|d docs IH]; intros n hs; cbn [collect query_matches].
  - intros H. now injection H as <-.
  - destruct (sort_value score (Every Query) sortedby d) as [v|e];
      cbn [bind]; [|discriminate].
    destruct (collect matches score (Every Query) sortedby (S n) docs)
      as [hs'|e] eqn:C; cbn [bind]; [|discriminate].
    intros H. injection H as <-. cbn [map hit_fields]. f_equal. now apply (IH (S n)).
Qed.

Lemma collect_length (q : query Query) (sortedby : option str) :
  forall docs n hs,
    collect matches score q sortedby n docs = Ok hs ->
    List.length hs <= List.length docs.
Proof.
  induction docs as [|d docs IH]; intros n hs; cbn [collect].
  - intros H. injection H as <-. apply Nat.le_refl.
  - destruct (query_matches matches q d).
    + destruct (sort_value score q sortedby d) as [v|e]; cbn [bind]; [|discriminate].
      destruct (collect matches score q sortedby (S n) docs) as [hs'|e] eqn:C;
        cbn [bind]; [|discriminate].
      intros H. injection H as <-. simpl. apply le_n_S. now apply (IH (S n)).
    + intros C. simpl. apply Nat.le_trans with (List.length docs); [|lia].
      now apply (IH (S n)).
Qed.

(** X12: a search whose trimmed term is [*] does not consult the query
    parser and, without a limit, returns one result for every entry of
    the synchronised index: each indexed entry is the note of some
    result. *)
Theorem search_star_all (term sort order : str) (idx : Index)
    (rs : list SearchResult) :
  strip term = lit "*" ->
  run term sort order None = Ok (idx, rs) ->
  List.length rs = List.length idx /\
  forall d, In d idx ->
            exists r, In r rs /\
                      Note_init (strip_ext (filename d)) = Ok (sr_note r).
Proof.
  intros Hs. unfold run, search.
  destruct (update_index fs self false) as [idx0|e]; cbn [bind]; [|discriminate].
  assert (Ep : pre_process_search_term term = lit "*").
  { rewrite pre_process_tokens, Hs. reflexivity. }
  rewrite Ep. change (str_eqb (lit "*") (lit "*")) with true. cbn [bind].
  unfold searcher_search.
  destruct (collect matches score (Every Query) (search_sortedby sort) 0 idx0)
    as [items|e] eqn:C; cbn [bind]; [|discriminate].
  destruct (mapM _ _) as [rs0|e] eqn:M; cbn [bind]; [|discriminate].
  intros H. injection H as <- <-.
  apply mapM_Forall2 in M.
  pose proof (list_sort_perm _ (@sort_key Query) (search_reverse sort order) items)
    as P.
  pose proof (collect_every _ _ _ _ C) as E.
  split.
  - rewrite <- (Forall2_length M), (Permutation_length P), <- E.
    apply eq_sym, length_map.
  - intros d Hd. rewrite <- E in Hd. apply in_map_iff in Hd as [h [<- Hh]].
    apply (Permutation_in _ (Permutation_sym P)) in Hh.
    destruct (Forall2_In_l _ _ _ M h Hh) as [r [Hr Hi]].
    exists r. split; [exact Hr | now apply init_note].
Qed.


(** X14: a result reports title highlights, content highlights and tag
    matches exactly for the fields that some matched term names; its tag
    matches, when there are any, are a non-empty list of the terms matched
    in the tags field. *)
Theorem SearchResult_fields (h : Hit Query) (r : SearchResult) :
  init h = Ok r ->
  let terms := matched_terms (hit_query h) (hit_fields h) in
  (_title_highlights r = None <->
     forall t, In t terms -> fst t <> lit "title") /\
  (_content_highlights r = None <->
     forall t, In t terms -> fst t <> lit "content") /\
  (_tag_matches r = None <->
     forall t, In t terms -> fst t <> lit "tags") /\
  (forall l, _tag_matches r = Some l ->
             l <> [] /\ forall w, In w l <-> In (lit "tags", w) terms).
Proof.
  unfold init, SearchResult_init.
  destruct (Note_init _) as [note|e]; cbn [bind]; [|discriminate].
  set (terms := matched_terms (hit_query h) (hit_fields h)).
  pose proof (field_not_matched (lit "title") terms) as Ht.
  pose proof (field_not_matched (lit "content") terms) as Hc.
  pose proof (field_not_matched (lit "tags") terms) as Hg.
  pose proof (field_matched (lit "tags") terms) as Hg'.
  assert (Hl : forall w, In w (map snd (filter (fun field => str_eqb (fst field) (lit "tags")) terms))
                         <-> In (lit "tags", w) terms).
  { intros w. rewrite in_map_iff. split.
    - intros [[f w'] [E Hin]]. apply filter_In in Hin as [Hin Hf].
      cbn [fst snd] in *. apply str_eqb_eq in Hf. now subst.
    - intros Hin. exists (lit "tags", w). split; [reflexivity|].
      apply filter_In. split; [exact Hin | apply str_eqb_refl]. }
  destruct (str_in (lit "content") (_get_matched_fields terms)) eqn:Ec.
  - destruct (Note_content fs (dir self) note) as [c|e]; cbn [bind]; [|discriminate].
    destruct (extract_tags c) as [p|e]; cbn [bind]; [|discriminate].
    intros H. apply Ok_inj in H. subst r.
    cbn [_title_highlights _content_highlights _tag_matches].
    split; [|split; [|split]].
    + destruct (str_in (lit "title") (_get_matched_fields terms)).
      * split; [discriminate|]. intros X. apply Ht in X. discriminate.
      * split; [intros _; now apply Ht | reflexivity].
    + split; [discriminate|]. intros X. apply Hc in X. discriminate.
    + destruct (str_in (lit "tags") (_get_matched_fields terms)).
      * split; [discriminate|]. intros X. apply Hg in X. discriminate.
      * split; [intros _; now apply Hg | reflexivity].
    + intros l. destruct (str_in (lit "tags") (_get_matched_fields terms));
        [|discriminate].
      intros X. apply Some_inj in X. subst l. split; [|exact Hl].
      destruct (proj1 Hg' eq_refl) as [[f w] [Hin E]]. cbn [fst] in E. subst f.
      intros N. apply (proj2 (Hl w)) in Hin. rewrite N in Hin. contradiction.
  - cbn [bind]. intros H. apply Ok_inj in H. subst r.
    cbn [_title_highlights _content_highlights _tag_matches].
    split; [|split; [|split]].
    + destruct (str_in (lit "title") (_get_matched_fields terms)).
      * split; [discriminate|]. intros X. apply Ht in X. discriminate.
      * split; [intros _; now apply Ht | reflexivity].
    + split; [intros _; now apply Hc | reflexivity].
    + destruct (str_in (lit "tags") (_get_matched_fields terms)).
      * split; [discriminate|]. intros X. apply Hg in X. discriminate.
      * split; [intros _; now apply Hg | reflexivity].
    + intros l. destruct (str_in (lit "tags") (_get_matched_fields terms));
        [|discriminate].
      intros X. apply Some_inj in X. subst l. split; [|exact Hl].
      destruct (proj1 Hg' eq_refl) as [[f w] [Hin E]]. cbn [fst] in E. subst f.
      intros N. apply (proj2 (Hl w)) in Hin. rewrite N in Hin. contradiction.
Qed.

Lemma mapM_firstn {A B : Type} (f : A -> result B) (n : nat) :
  forall l rs, mapM f l = Ok rs -> mapM f (firstn n l) = Ok (firstn n rs).
Proof.
  induction n as [|n IH]; intros l rs H; [reflexivity|].
  destruct l as [|x l]; cbn [mapM firstn] in *.
  - apply Ok_inj in H. now subst rs.
  - destruct (f x) as [y|e]; cbn [bind] in *; [|discriminate].
    destruct (mapM f l) as [ys|e] eqn:M; cbn [bind] in *; [|discriminate].
    apply Ok_inj in H. subst rs. cbn [firstn].
    now rewrite (IH l ys M).
Qed.


End SearchMore.

Lemma search_star_all_witness :
  demo_search (lit " * ") (lit "title") (lit "asc") None = Ok (idx_after, by_title) /\
  List.length by_title = List.length idx_after.
Proof.
  assert (E : demo_search (lit " * ") (lit "title") (lit "asc") None =
              Ok (idx_after, by_title)) by reflexivity.
  split; [exact E|].
  exact (proj1 (search_star_all str demo_parse demo_matches demo_score demo_terms
                  demo_highlights fs_three notes_three (lit " * ") (lit "title")
                  (lit "asc") idx_after by_title eq_refl E)).
Defined.


Lemma SearchResult_fields_witness :
  SearchResult_init demo_terms demo_highlights fs_three notes_three
    (mkHit 1 (mkDoc (lit "c.md") 9 (lit "c") (lit "gamma #") (lit "new"))
           (PyFloat 7) (Parsed (lit "gamma"))) =
    Ok gamma_hit_result /\
  (_title_highlights gamma_hit_result = None <->
   forall t, In t [(lit "content", lit "gamma")] -> fst t <> lit "title").
Proof.
  assert (E : SearchResult_init demo_terms demo_highlights fs_three notes_three
                (mkHit 1 (mkDoc (lit "c.md") 9 (lit "c") (lit "gamma #") (lit "new"))
                       (PyFloat 7) (Parsed (lit "gamma"))) =
              Ok gamma_hit_result) by reflexivity.
  split; [exact E|].
  exact (proj1 (SearchResult_fields str demo_terms demo_highlights fs_three
                  notes_three _ _ E)).
Defined.

(* ------------------------------------------------------------------ *)
(** ** [Flatnotes.update_index], continued *)

Lemma str_in_ext (k : str) (l l' : list str) :
  (forall x, In x l <-> In x l') -> str_in k l = str_in k l'.
Proof.
  intros H. destruct (str_in k l') eqn:E.
  - apply str_in_In. apply H. now apply str_in_In.
  - apply str_in_not_In. intros X. apply H in X.
    apply str_in_not_In in E. contradiction.
Qed.

Lemma extract_tags_total (c : str) : exists r, extract_tags c = Ok r.
Proof. unfold extract_tags, re_extract, try_except. eexists. reflexivity. Qed.

Section SyncMore.

Variable fs : FS.
Variable self : Flatnotes.

Hypothesis unique_entries : NoDup (map filename (index self)).
Hypothesis entries_are_notes :
  forall d, In d (index self) -> on_disk fs self d = true ->
            In (filename d) (note_keys fs (dir self)).

(** What a synchronisation leaves: the unchanged entries unless the index
    is cleared, then the rebuilt ones, then those of the notes not seen. *)
Lemma update_index_parts (clean : bool) (idx' : Index) :
  update_index fs self clean = Ok idx' ->
  exists U V,
    idx' = (if clean then [] else filter (fresh fs self) (index self)) ++ U ++ V /\
    map filename U = map filename (filter (stale fs self) (index self)) /\
    map filename V =
      filter (fun k => negb (str_in k (map filename
                                         (filter (on_disk fs self) (index self)))))
             (note_keys fs (dir self)).
Proof.
  unfold update_index.
  set (w0 := if clean then set_clear (writer (index self)) else writer (index self)).
  destruct (update_index_existing fs self (index self) w0 [])
    as [[w1 indexed]|e] eqn:E1; cbn [bind]; [|discriminate].
  unfold _get_notes.
  destruct (_get_notes_loop self (glob_md (dir self) fs)) as [notes|e] eqn:E2;
    cbn [bind]; [|discriminate].
  destruct (update_index_new fs self notes indexed w1) as [w2|e] eqn:E3;
    cbn [bind]; [|discriminate].
  intros H. apply Ok_inj in H. subst idx'.
  apply get_notes_keys in E2. fold (note_keys fs (dir self)) in E2.
  apply existing_spec in E1 as [S1 [[U [A1 KU]] [I1 M1]]].
  2:{ intros d Hd Hs n. apply (note_key_canonical fs self).
      apply entries_are_notes; [assumption|].
      unfold stale in Hs. now apply andb_true_iff in Hs as [Hs _]. }
  apply new_spec in E3 as [V [A2 [KV [S2 M2]]]].
  assert (Ew : segments w0 = index self /\ added w0 = [] /\
               mergetype_clear w0 = clean).
  { subst w0. now destruct clean. }
  destruct Ew as [Ws [Wa Wm]].
  rewrite Ws in S1. rewrite Wa in A1. cbn [app] in A1. rewrite Wm in M1.
  rewrite E2 in KV.
  assert (KV' : map filename V =
                filter (fun k => negb (str_in k (map filename
                                  (filter (on_disk fs self) (index self)))))
                       (note_keys fs (dir self))).
  { rewrite KV. apply filter_ext. intros k. f_equal. apply str_in_ext.
    intros x. rewrite I1. simpl. tauto. }
  exists U, V. split; [|split; assumption].
  unfold commit. rewrite M2, M1, A2, A1.
  destruct clean; [reflexivity|]. f_equal.
  rewrite S2, S1, filter_filter. apply filter_ext_in. intros d Hd.
  destruct (fresh fs self d) eqn:Ef.
  - assert (G1 : str_in (filename d)
              (map filename (filter (fun d => negb (fresh fs self d)) (index self)))
              = false).
    { apply str_in_not_In. intros Hin.
      apply in_map_iff in Hin as [d' [Ek Hd']].
      apply filter_In in Hd' as [Hd' Hf'].
      rewrite (NoDup_key_inj filename _ _ _ unique_entries Hd' Hd Ek) in Hf'.
      rewrite Ef in Hf'. discriminate. }
    assert (G2 : str_in (filename d) (map filename V) = false).
    { apply str_in_not_In. rewrite KV'. intros Hin.
      apply filter_In in Hin as [_ Hin].
      apply negb_true_iff, str_in_not_In in Hin. apply Hin.
      apply in_map. apply filter_In. split; [assumption|].
      unfold fresh in Ef. now apply andb_true_iff in Ef as [Ef _]. }
    now rewrite G1, G2.
  - assert (G1 : str_in (filename d)
              (map filename (filter (fun d => negb (fresh fs self d)) (index self)))
              = true).
    { apply str_in_In, in_map, filter_In. split; [assumption|].
      now rewrite Ef. }
    now rewrite G1.
Qed.


(** X16: after a synchronisation without clearing, a file name is a key of
    the index exactly when it is the file name of a note of the
    directory. *)
Theorem update_index_indexed_iff (idx' : Index) (k : str) :
  update_index fs self false = Ok idx' ->
  In k (map filename idx') <-> In k (note_keys fs (dir self)).
Proof.
  intros H. apply update_index_parts in H as [U [V [E [KU KV]]]].
  rewrite E, !map_app, KU, KV, !in_app_iff, filter_In, !in_map_iff.
  assert (Hon : In k (map filename (filter (on_disk fs self) (index self))) ->
                In k (note_keys fs (dir self))).
  { intros Hin. apply in_map_iff in Hin as [d [<- Hd]].
    apply filter_In in Hd as [Hd Ho]. now apply entries_are_notes. }
  split.
  - intros [[d [<- Hd]] | [[d [<- Hd]] | [Hk _]]].
    + apply filter_In in Hd as [Hd Hf]. apply entries_are_notes; [assumption|].
      unfold fresh in Hf. now apply andb_true_iff in Hf as [Hf _].
    + apply filter_In in Hd as [Hd Hf]. apply entries_are_notes; [assumption|].
      unfold stale in Hf. now apply andb_true_iff in Hf as [Hf _].
    + exact Hk.
  - intros Hk.
    destruct (str_in k (map filename (filter (on_disk fs self) (index self))))
      eqn:Es.
    + apply str_in_In, in_map_iff in Es as [d [<- Hd]].
      apply filter_In in Hd as [Hd Ho].
      destruct (unchanged fs self d) eqn:Eu.
      * left. exists d. split; [reflexivity|]. apply filter_In.
        split; [assumption|]. unfold fresh. now rewrite Ho, Eu.
      * right. left. exists d. split; [reflexivity|]. apply filter_In.
        split; [assumption|]. unfold stale. now rewrite Ho, Eu.
    + right. right. split; [exact Hk | reflexivity].
Qed.


End SyncMore.


Lemma update_index_indexed_iff_witness :
  In (lit "b.md") (map filename idx_after) <->
  In (lit "b.md") (note_keys fs_three (lit "notes")).
Proof.
  apply (update_index_indexed_iff fs_three notes_three).
  - apply all_distinct_NoDup. vm_compute. reflexivity.
  - apply entries_are_notes_b_ok. vm_compute. reflexivity.
  - reflexivity.
Defined.


(* ------------------------------------------------------------------ *)
(** ** Paths of note files *)

Lemma split_on_nonempty (sep : ascii) (s : str) : split_on sep s <> [].
Proof.
  destruct s as [|c s]; cbn [split_on]; [discriminate|].
  destruct (Ascii.eqb c sep); [discriminate|].
  destruct (split_on sep s); discriminate.
Qed.

Lemma split_on_app_sep (sep : ascii) (l r : str) :
  split_on sep (l ++ sep :: r) = split_on sep l ++ split_on sep r.
Proof.
  induction l as [|c l IH]; cbn [app split_on].
  - now rewrite Ascii.eqb_refl.
  - destruct (Ascii.eqb c sep); [now rewrite IH|].
    rewrite IH. pose proof (split_on_nonempty sep l) as N.
    destruct (split_on sep l) as [|w ws]; [contradiction | reflexivity].
Qed.

Lemma last_app_r {A : Type} (l r : list A) (d : A) :
  r <> [] -> last (l ++ r) d = last r d.
Proof.
  intros N. induction l as [|x l IH]; [reflexivity|].
  cbn [app]. cbn [last]. destruct (l ++ r) eqn:E; [|exact IH].
  apply app_eq_nil in E as [_ E]. contradiction.
Qed.

Lemma split_on_last (sep : ascii) (s : str) :
  forall w ws, split_on sep s = w :: ws ->
               exists pre, s = pre ++ last (w :: ws) [] /\ (ws = [] -> pre = []).
Proof.
  induction s as [|c s IH]; intros w ws; cbn [split_on].
  - intros H. injection H as <- <-. now exists [].
  - pose proof (split_on_nonempty sep s) as N.
    destruct (split_on sep s) as [|w' ws'] eqn:S; [contradiction|].
    destruct (IH w' ws' eq_refl) as [pre [E Hp]].
    destruct (Ascii.eqb c sep).
    + intros H. injection H as <- <-. exists (c :: pre).
      split; [|discriminate]. exact (f_equal (cons c) E).
    + intros H. injection H as <- <-. destruct ws' as [|x xs].
      * rewrite (Hp eq_refl) in E. cbn [app last] in E. subst s.
        exists []. now split.
      * exists (c :: pre). split; [|discriminate].
        exact (f_equal (cons c) E).
Qed.

(** A path ends with its last component. *)
Lemma basename_suffix (p : str) : exists pre, p = pre ++ basename p.
Proof.
  unfold basename. pose proof (split_on_nonempty "/" p) as N.
  destruct (split_on "/" p) as [|w ws] eqn:S; [contradiction|].
  destruct (split_on_last "/" p w ws S) as [pre [E _]]. now exists pre.
Qed.

Lemma ends_with_iff (suffix s : str) :
  ends_with suffix s = true <-> exists pre, s = pre ++ suffix.
Proof.
  unfold ends_with. rewrite starts_with_iff. split.
  - intros [post E]. exists (rev post).
    apply (f_equal (@rev ascii)) in E.
    now rewrite rev_involutive, rev_app_distr, rev_involutive in E.
  - intros [pre ->]. exists (rev pre). apply rev_app_distr.
Qed.

Lemma dir_prefix (dir : str) :
  path_join dir [] = [] \/ exists l, path_join dir [] = l ++ ["/"%char].
Proof.
  unfold path_join. cbn [starts_with lit].
  destruct dir as [|c dir]; [now left|]. right.
  destruct (ends_with (lit "/") (c :: dir)) eqn:E.
  - apply ends_with_iff in E as [pre E]. exists pre.
    now rewrite app_nil_r.
  - exists (c :: dir). reflexivity.
Qed.

(** The last component of a path that the listing yields ends in [.md]. *)
Lemma glob_md_basename (fs : FS) (dir p : str) :
  In p (glob_md dir fs) -> exists s, basename p = s ++ MARKDOWN_EXT.
Proof.
  unfold glob_md. intros H. apply in_map_iff in H as [f [<- Hf]].
  apply filter_In in Hf as [_ G]. unfold glob_match in G.
  apply andb_true_iff in G as [G1 G2]. apply andb_true_iff in G2 as [_ G2].
  apply starts_with_iff in G1 as [post E].
  apply ends_with_iff in G2 as [s G2]. exists s. rewrite <- G2.
  unfold basename. rewrite E at 1 2.
  rewrite skipn_app, Nat.sub_diag, skipn_all. cbn [skipn app].
  destruct (dir_prefix dir) as [-> | [l ->]]; [reflexivity|].
  rewrite <- app_assoc. cbn [app]. rewrite split_on_app_sep.
  apply last_app_r, split_on_nonempty.
Qed.

(* ------------------------------------------------------------------ *)
(** ** When a synchronisation succeeds and how it fails *)

Lemma Note_init_raises (t : str) (e : exn) :
  Note_init t = Raise e -> e = InvalidTitleError.
Proof.
  unfold Note_init. destruct (negb _); [|discriminate].
  intros H. now injection H as <-.
Qed.

Section SyncTotal.

Variable fs : FS.
Variable self : Flatnotes.

Lemma add_note_raises (w : Writer) (note : Note) (e : exn) :
  _add_note_to_index fs self w note = Raise e -> e = FileNotFoundError.
Proof.
  unfold _add_note_to_index, Note_content, Note_last_modified, read_file, getmtime.
  destruct (find_file fs (Note_filepath fs (dir self) note)) as [f|];
    cbn [bind].
  - destruct (extract_tags_total (f_content f)) as [[ex ts] ->]. cbn [bind].
    discriminate.
  - intros H. now injection H as <-.
Qed.

Lemma existing_raises (docs : list Doc) :
  forall w indexed e,
    update_index_existing fs self docs w indexed = Raise e ->
    e = InvalidTitleError \/ e = FileNotFoundError.
Proof.
  induction docs as [|d docs IH]; intros w indexed e; cbn [update_index_existing].
  - discriminate.
  - destruct (negb (path_exists fs (path_join (dir self) (filename d))));
      [apply IH|].
    unfold getmtime.
    destruct (find_file fs (path_join (dir self) (filename d))) as [f|];
      cbn [bind]; [|intros H; injection H as <-; now right].
    destruct (negb (f_mtime f =? last_modified d)%Z); [|apply IH].
    destruct (Note_init (strip_ext (filename d))) as [n|e'] eqn:En; cbn [bind].
    + destruct (_add_note_to_index fs self w n) as [w1|e'] eqn:Ea; cbn [bind];
        [apply IH|].
      intros H. injection H as <-. right. exact (add_note_raises _ _ _ Ea).
    + intros H. injection H as <-. left. exact (Note_init_raises _ _ En).
Qed.

Lemma get_notes_raises (paths : list str) (e : exn) :
  _get_notes_loop self paths = Raise e -> e = InvalidTitleError.
Proof.
  induction paths as [|p paths IH]; cbn [_get_notes_loop]; [discriminate|].
  destruct (Note_init (strip_ext (basename p))) as [n|e'] eqn:En; cbn [bind].
  - destruct (_get_notes_loop self paths) as [ns|e']; cbn [bind]; [discriminate|].
    intros H. injection H as <-. now apply IH.
  - intros H. injection H as <-. exact (Note_init_raises _ _ En).
Qed.

Lemma new_raises (notes : list Note) (indexed : list str) :
  forall w e, update_index_new fs self notes indexed w = Raise e ->
              e = FileNotFoundError.
Proof.
  induction notes as [|n notes IH]; intros w e; cbn [update_index_new].
  - discriminate.
  - destruct (negb (str_in (Note_filename n) indexed)); [|apply IH].
    destruct (_add_note_to_index fs self w n) as [w1|e'] eqn:Ea; cbn [bind];
      [apply IH|].
    intros H. injection H as <-. exact (add_note_raises _ _ _ Ea).
Qed.


Lemma get_notes_bad (paths : list str) :
  (exists p, In p paths /\ _is_valid_title (strip (stem p)) = false) ->
  _get_notes_loop self paths = Raise InvalidTitleError.
Proof.
  induction paths as [|q paths IH]; intros [p [Hp Hv]]; [contradiction|].
  cbn [_get_notes_loop].
  destruct (Note_init (strip_ext (basename q))) as [n|e] eqn:En; cbn [bind].
  - destruct Hp as [-> | Hp].
    + unfold Note_init in En. unfold stem in Hv. rewrite Hv in En. discriminate.
    + rewrite IH; [reflexivity|]. now exists p.
  - now rewrite (Note_init_raises _ _ En).
Qed.

Lemma get_notes_good (paths : list str) :
  (forall p, In p paths -> _is_valid_title (strip (stem p)) = true) ->
  exists notes, _get_notes_loop self paths = Ok notes.
Proof.
  induction paths as [|q paths IH]; intros H; [now exists []|].
  cbn [_get_notes_loop]. unfold Note_init.
  fold (stem q). rewrite (H q (or_introl eq_refl)). cbn [negb bind].
  destruct IH as [ns ->]; [intros p Hp; apply H; now right|].
  cbn [bind]. eexists. reflexivity.
Qed.

(** X19: one markdown file whose name, trimmed and without its extension,
    is not a valid title makes the listing of the notes raise
    [InvalidTitleError], and with it every synchronisation fails; the
    listing fails in no other case. *)
Theorem bad_name_breaks_sync :
  (_get_notes fs self = Raise InvalidTitleError <->
   exists p, In p (glob_md (dir self) fs) /\
             _is_valid_title (strip (stem p)) = false) /\
  ((exists p, In p (glob_md (dir self) fs) /\
              _is_valid_title (strip (stem p)) = false) ->
   forall clean, exists e, update_index fs self clean = Raise e).
Proof.
  split; [split|].
  - intros H.
    destruct (forallb (fun p => _is_valid_title (strip (stem p)))
                      (glob_md (dir self) fs)) eqn:F.
    + rewrite forallb_forall in F.
      destruct (get_notes_good _ F) as [ns E].
      unfold _get_notes in H. rewrite E in H. discriminate.
    + apply not_true_iff_false in F.
      destruct (existsb (fun p => negb (_is_valid_title (strip (stem p))))
                        (glob_md (dir self) fs)) eqn:X.
      * apply existsb_exists in X as [p [Hp Hv]]. exists p.
        split; [assumption | now apply negb_true_iff].
      * exfalso. apply F. apply forallb_forall. intros p Hp.
        destruct (_is_valid_title (strip (stem p))) eqn:V; [reflexivity|].
        assert (Y : existsb (fun p => negb (_is_valid_title (strip (stem p))))
                            (glob_md (dir self) fs) = true).
        { apply existsb_exists. exists p. split; [assumption | now rewrite V]. }
        rewrite X in Y. discriminate.
  - apply get_notes_bad.
  - intros Hbad clean. unfold update_index.
    match goal with
    | |- exists e, bind ?m _ = _ => destruct m as [[w1 indexed]|e']
    end; cbn [bind]; [|now exists e'].
    unfold _get_notes. rewrite (get_notes_bad _ Hbad). cbn [bind].
    now exists InvalidTitleError.
Qed.

Hypothesis files_ok : note_files_ok fs (dir self) = true.

Lemma key_is_basename (p : str) :
  In p (glob_md (dir self) fs) ->
  _is_valid_title (stem p) = true /\ strip (stem p) = stem p /\
  key_of_path p = basename p /\ stem p ++ MARKDOWN_EXT = basename p.
Proof.
  intros Hp. unfold note_files_ok in files_ok.
  rewrite forallb_forall in files_ok. specialize (files_ok p Hp).
  apply andb_true_iff in files_ok as [V T]. apply str_eqb_eq in T.
  destruct (glob_md_basename _ _ _ Hp) as [s Es].
  assert (E : stem p ++ MARKDOWN_EXT = basename p).
  { unfold stem. rewrite Es. now rewrite strip_ext_md. }
  repeat split; try assumption.
  unfold key_of_path. fold (stem p). now rewrite T.
Qed.

Lemma note_of_key (k : str) :
  In k (note_keys fs (dir self)) ->
  exists n, Note_init (strip_ext k) = Ok n /\ Note_filename n = k.
Proof.
  unfold note_keys. intros H. apply in_map_iff in H as [p [<- Hp]].
  destruct (key_is_basename p Hp) as [V [T [K E]]].
  rewrite K, <- E, strip_ext_md. unfold Note_init. rewrite T, V. cbn [negb].
  eexists. split; reflexivity.
Qed.

Lemma add_note_ok (w : Writer) (n : Note) :
  In (Note_filename n) (note_keys fs (dir self)) ->
  exists w', _add_note_to_index fs self w n = Ok w'.
Proof.
  unfold note_keys. intros H. apply in_map_iff in H as [p [K Hp]].
  destruct (key_is_basename p Hp) as [_ [_ [Kb _]]]. rewrite Kb in K.
  assert (Hc : contains (Note_filename n) p = true).
  { rewrite <- K. apply contains_iff. destruct (basename_suffix p) as [pre E].
    exists pre, []. now rewrite app_nil_r. }
  assert (Hf : In (Note_filepath fs (dir self) n) (glob_md (dir self) fs)).
  { unfold Note_filepath, filepath_loop. rewrite filepath_loop_last.
    destruct (last_In_or_default
                (filter (contains (Note_filename n)) (glob_md (dir self) fs)) [])
      as [E | Hin].
    - assert (X : In p (filter (contains (Note_filename n))
                               (glob_md (dir self) fs)))
        by (apply filter_In; now split).
      rewrite E in X. contradiction.
    - now apply filter_In in Hin as [Hin _]. }
  apply glob_md_exists in Hf. unfold path_exists in Hf.
  unfold _add_note_to_index, Note_content, Note_last_modified, read_file, getmtime.
  destruct (find_file fs (Note_filepath fs (dir self) n)) as [f|];
    [|discriminate].
  cbn [bind]. destruct (extract_tags_total (f_content f)) as [[ex ts] ->].
  cbn [bind]. eexists. reflexivity.
Qed.

Lemma existing_ok (docs : list Doc) :
  (forall d, In d docs -> on_disk fs self d = true ->
             In (filename d) (note_keys fs (dir self))) ->
  forall w indexed,
    exists r, update_index_existing fs self docs w indexed = Ok r.
Proof.
  induction docs as [|d docs IH]; intros H w indexed.
  - eexists. reflexivity.
  - assert (H' : forall d0, In d0 docs -> on_disk fs self d0 = true ->
                            In (filename d0) (note_keys fs (dir self)))
      by (intros d0 Hd0; apply H; now right).
    cbn [update_index_existing].
    pose proof (H d (or_introl eq_refl)) as Hd. unfold on_disk in Hd.
    destruct (path_exists fs (path_join (dir self) (filename d))) eqn:E;
      cbn [negb]; [|now apply IH].
    unfold path_exists in E. unfold getmtime.
    destruct (find_file fs (path_join (dir self) (filename d))) as [f|];
      [|discriminate].
    cbn [bind]. destruct (negb (f_mtime f =? last_modified d)%Z); [|now apply IH].
    destruct (note_of_key _ (Hd eq_refl)) as [n [-> Kn]]. cbn [bind].
    destruct (add_note_ok w n) as [w1 ->]; [rewrite Kn; now apply Hd|].
    cbn [bind]. now apply IH.
Qed.

Lemma new_ok (notes : list Note) (indexed : list str) :
  (forall n, In n notes -> In (Note_filename n) (note_keys fs (dir self))) ->
  forall w, exists w', update_index_new fs self notes indexed w = Ok w'.
Proof.
  induction notes as [|n notes IH]; intros H w.
  - eexists. reflexivity.
  - cbn [update_index_new].
    assert (H' : forall n0, In n0 notes ->
                            In (Note_filename n0) (note_keys fs (dir self)))
      by (intros n0 Hn0; apply H; now right).
    destruct (negb (str_in (Note_filename n) indexed)); [|now apply IH].
    destruct (add_note_ok w n (H n (or_introl eq_refl))) as [w1 ->].
    cbn [bind]. now apply IH.
Qed.


End SyncTotal.

(** X21: the first synchronisation, on an empty index, leaves one entry
    for every note file, in the order of the listing, under the file name
    the note is given; clearing makes no difference. *)
Theorem update_index_from_empty (fs : FS) (dir : str) (clean : bool)
    (idx' : Index) :
  update_index fs (mkFlatnotes dir []) clean = Ok idx' ->
  map filename idx' = note_keys fs dir.
Proof.
  intros H.
  apply (update_index_parts fs (mkFlatnotes dir [])) in H
    as [U [V [E [KU KV]]]].
  - cbn [index filter map] in *. apply map_eq_nil in KU. subst U.
    rewrite E. destruct clean; cbn [app]; rewrite KV; apply filter_true.
  - constructor.
  - intros d [].
Qed.


Lemma bad_name_breaks_sync_witness :
  exists e,
    update_index fs_bad_name (mkFlatnotes (lit "notes") idx_a) true = Raise e.
Proof.
  apply (proj2 (bad_name_breaks_sync fs_bad_name (mkFlatnotes (lit "notes") idx_a))).
  exists (lit "notes/why?.md"). split; [right; left; reflexivity | reflexivity].
Defined.


Lemma update_index_from_empty_witness :
  update_index fs_a (mkFlatnotes (lit "notes") []) true = Ok idx_a /\
  map filename idx_a = note_keys fs_a (lit "notes").
Proof.
  split; [reflexivity|].
  exact (update_index_from_empty fs_a (lit "notes") true idx_a eq_refl).
Defined.

(* ------------------------------------------------------------------ *)
(** ** [Flatnotes._add_note_to_index]: the entry of a note *)

Lemma words_from_token (t : str) :
  forall cur s, forallb nonspace t = true ->
                words_from cur (t ++ s) = words_from (rev t ++ cur) s.
Proof.
  induction t as [|c t IH]; intros cur s H; [reflexivity|].
  cbn [forallb] in H. apply andb_true_iff in H as [Hc Ht].
  cbn [app words_from]. unfold nonspace in Hc.
  destruct (is_space c); [discriminate|].
  rewrite (IH _ _ Ht). cbn [rev]. now rewrite <- app_assoc.
Qed.

(** [" ".join(ts).split()] gives [ts] back when no element is empty or
    holds white space. *)
Lemma words_join (ts : list str) :
  Forall (fun t => t <> [] /\ forallb nonspace t = true) ts ->
  words (join (lit " ") ts) = ts.
Proof.
  unfold words. induction ts as [|t ts IH]; intros F; [reflexivity|].
  apply Forall_cons_iff in F as [[Hne Hns] F].
  assert (Hr : rev t <> []).
  { intros E. apply Hne. apply (f_equal (@rev ascii)) in E.
    now rewrite rev_involutive in E. }
  destruct ts as [|u us].
  - cbn [join]. rewrite <- (app_nil_r t) at 1.
    rewrite (words_from_token t [] [] Hns), app_nil_r. cbn [words_from].
    destruct (rev t) as [|x r] eqn:E; [contradiction|].
    rewrite <- E. now rewrite rev_involutive.
  - change (join (lit " ") (t :: u :: us))
      with (t ++ " "%char :: join (lit " ") (u :: us)).
    rewrite (words_from_token t [] _ Hns), app_nil_r.
    cbn [words_from]. change (is_space " ") with true. cbv iota.
    destruct (rev t) as [|x r] eqn:E; [contradiction|].
    rewrite <- E, rev_involutive. f_equal. now apply IH.
Qed.

Lemma lower_join (ts : list str) :
  Forall (fun t => lower t = t) ts ->
  lower (join (lit " ") ts) = join (lit " ") ts.
Proof.
  induction ts as [|t ts IH]; intros F; [reflexivity|].
  apply Forall_cons_iff in F as [Ht F].
  destruct ts as [|u us]; [exact Ht|].
  change (join (lit " ") (t :: u :: us))
    with (t ++ " "%char :: join (lit " ") (u :: us)).
  unfold lower in *. rewrite map_app. cbn [map]. rewrite Ht.
  f_equal. f_equal. now apply IH.
Qed.

(** X22: the entry that [_add_note_to_index] writes for a note carries the
    file name and the title of the note, the content of its file without
    the tags, and a tags field that is in lower case and whose words are
    exactly the tags extracted from the content, in their order. *)
Theorem add_note_entry (fs : FS) (self : Flatnotes) (w w' : Writer)
    (note : Note) :
  _add_note_to_index fs self w note = Ok w' ->
  exists c d,
    Note_content fs (dir self) note = Ok c /\
    w' = update_document d w /\
    filename d = Note_filename note /\
    title d = Note_title note /\
    extract_tags c = Ok (content d, words (tags d)) /\
    lower (tags d) = tags d.
Proof.
  unfold _add_note_to_index.
  destruct (Note_content fs (dir self) note) as [c|e]; cbn [bind];
    [|discriminate].
  destruct (extract_tags c) as [[ex ts]|e] eqn:Et; cbn [bind]; [|discriminate].
  destruct (Note_last_modified fs (dir self) note) as [m|e]; cbn [bind];
    [|discriminate].
  intros H. apply Ok_inj in H. subst w'.
  destruct (extract_tags_tags _ _ _ Et) as [_ F].
  eexists c, _. split; [reflexivity|]. split; [reflexivity|].
  cbn [filename title content tags].
  split; [reflexivity|]. split; [reflexivity|]. split.
  - rewrite words_join; [exact Et|].
    eapply Forall_impl; [|exact F]. cbv beta.
    intros t [H1 [H2 _]]. split; [assumption | now apply word_all_nonspace].
  - apply lower_join. eapply Forall_impl; [|exact F]. cbv beta.
    now intros t [_ [_ H3]].
Qed.

Lemma add_note_entry_witness :
  exists c d,
    Note_content fs_three (dir notes_three) note_c = Ok c /\
    writer_c = update_document d (writer idx_before) /\
    filename d = Note_filename note_c /\
    title d = Note_title note_c /\
    extract_tags c = Ok (content d, words (tags d)) /\
    lower (tags d) = tags d.
Proof.
  exact (add_note_entry fs_three notes_three (writer idx_before) writer_c note_c
           eq_refl).
Defined.

(* ------------------------------------------------------------------ *)
(** ** [Flatnotes.__init__] and [Flatnotes._load_index] *)

Lemma assoc_get_set {V : Type} (k : str) (v : V) (l : list (str * V)) :
  assoc_get k (assoc_set k v l) = Some v.
Proof.
  induction l as [|[k' v'] l IH]; cbn [assoc_set assoc_get].
  - now rewrite str_eqb_refl.
  - destruct (str_eqb k' k) eqn:E; cbn [assoc_get].
    + now rewrite str_eqb_refl.
    + now rewrite E.
Qed.

Lemma stored_in_store (disk : Disk) (d name : str) (idx : Index) :
  stored_in (store_index disk d name idx) d =
  assoc_set name idx (stored_in disk d).
Proof.
  unfold stored_in at 1, store_index. cbn [indexes].
  now rewrite assoc_get_set.
Qed.

Lemma load_index_dir (disk disk' : Disk) (dir : str) (idx : Index) :
  _load_index disk dir = (idx, disk') ->
  dir_exists disk' (index_dir dir) = true /\ files disk' = files disk.
Proof.
  unfold _load_index.
  destruct (dir_exists disk (index_dir dir)) eqn:D; cbn [andb].
  - destruct (exists_in disk (index_dir dir) INDEX_SCHEMA_VERSION);
      intros H; injection H as _ <-; [now split|].
    split; [exact D | reflexivity].
  - intros H. injection H as _ <-. split; [|reflexivity].
    unfold dir_exists, create_in, mkdir. cbn [directories].
    apply str_in_In, in_or_app. right. now left.
Qed.

(** X23: when the index directory is missing, or holds no index of the
    current schema version, opening a notes directory does not fail for
    that: it indexes every note file afresh and leaves the note files as
    they are; an index directory that was there holds the new index and
    nothing else afterwards. *)
Theorem Flatnotes_init_rebuilds (disk disk' : Disk) (dir : str)
    (self : Flatnotes) :
  dir_exists disk (index_dir dir) &&
    exists_in disk (index_dir dir) INDEX_SCHEMA_VERSION = false ->
  Flatnotes_init disk dir = Opened self disk' ->
  map filename (index self) = note_keys (files disk) dir /\
  files disk' = files disk /\
  (dir_exists disk (index_dir dir) = true ->
   stored_in disk' (index_dir dir) = [(INDEX_SCHEMA_VERSION, index self)]).
Proof.
  intros Hno. unfold Flatnotes_init.
  destruct (negb (dir_exists disk dir)); [discriminate|].
  unfold _load_index. rewrite Hno.
  set (disk1 := create_in _ (index_dir dir) INDEX_SCHEMA_VERSION).
  assert (Ef : files disk1 = files disk).
  { subst disk1. now destruct (dir_exists disk (index_dir dir)). }
  destruct (update_index (files disk1) (mkFlatnotes dir []) false)
    as [idx'|e] eqn:U; [|discriminate].
  intros H. injection H as <- <-. cbn [index].
  rewrite Ef in U. apply update_index_from_empty in U.
  split; [exact U|]. split; [exact Ef|].
  intros D. rewrite stored_in_store. subst disk1. rewrite D.
  unfold stored_in at 1, create_in, empty_dir. cbn [indexes].
  rewrite assoc_get_set.
  unfold stored_in. cbn [indexes]. rewrite assoc_get_set.
  cbn [assoc_set]. now rewrite str_eqb_refl.
Qed.

(** X24: what one opening of a notes directory commits, the next one
    loads: on the disk that [Flatnotes.__init__] leaves, [_load_index]
    finds the index of the current schema version, returns the entries of
    the opened index and changes nothing. *)
Theorem Flatnotes_init_reload (disk disk' : Disk) (root : str)
    (self : Flatnotes) :
  Flatnotes_init disk root = Opened self disk' ->
  dir self = root /\ _load_index disk' root = (index self, disk').
Proof.
  unfold Flatnotes_init.
  destruct (negb (dir_exists disk root)); [discriminate|].
  destruct (_load_index disk root) as [idx disk1] eqn:L.
  destruct (update_index (files disk1) (mkFlatnotes root idx) false)
    as [idx'|e]; [|discriminate].
  intros H. injection H as <- <-. split; [reflexivity|]. cbn [index].
  apply load_index_dir in L as [D _].
  unfold _load_index.
  assert (D' : dir_exists (store_index disk1 (index_dir root)
                             INDEX_SCHEMA_VERSION idx') (index_dir root) = true)
    by exact D.
  rewrite D'. unfold exists_in. rewrite stored_in_store, assoc_get_set.
  reflexivity.
Qed.

Lemma Flatnotes_init_rebuilds_witness :
  Flatnotes_init disk_old (lit "notes") =
    Opened (mkFlatnotes (lit "notes") idx_a) disk_opened /\
  map filename idx_a = note_keys fs_a (lit "notes").
Proof.
  split; [reflexivity|].
  exact (proj1 (Flatnotes_init_rebuilds disk_old disk_opened (lit "notes")
                  (mkFlatnotes (lit "notes") idx_a) eq_refl eq_refl)).
Defined.

Lemma Flatnotes_init_reload_witness :
  _load_index disk_opened (lit "notes") = (idx_a, disk_opened).
Proof.
  exact (proj2 (Flatnotes_init_reload disk_old disk_opened (lit "notes")
                  (mkFlatnotes (lit "notes") idx_a) eq_refl)).
Defined.

(* ------------------------------------------------------------------ *)
(** ** [Flatnotes.extract_tags], token by token *)

Lemma map_tokens_unfold {B : Type} (f : str -> list B) (sp : ascii -> list B)
    (a tok : str) :
  map_tokens f sp tok a =
  f (rev tok ++ fst (span nonspace a)) ++
  match snd (span nonspace a) with
  | [] => []
  | c :: rest => sp c ++ map_tokens f sp [] rest
  end.
Proof.
  revert tok. induction a as [|c a IH]; intros tok; cbn [map_tokens span].
  - cbn [fst snd]. now rewrite !app_nil_r.
  - assert (Hn : nonspace c = negb (is_space c)) by reflexivity.
    rewrite !Hn. destruct (is_space c); cbn [negb fst snd].
    + now rewrite app_nil_r.
    + rewrite IH. cbn [rev]. now rewrite <- app_assoc.
Qed.

Lemma map_tokens_token {B : Type} (f : str -> list B) (sp : ascii -> list B)
    (t rest : str) :
  forallb nonspace t = true ->
  match rest with [] => True | x :: _ => nonspace x = false end ->
  map_tokens f sp [] (t ++ rest) =
  f t ++ match rest with [] => [] | c :: rest' => sp c ++ map_tokens f sp [] rest' end.
Proof.
  intros Ht Hr. rewrite (map_tokens_unfold f sp (t ++ rest) []).
  now rewrite (span_exact nonspace t rest Ht Hr).
Qed.

Lemma flat_map_map_tokens {B C : Type} (g : B -> list C) (f : str -> list B)
    (sp : ascii -> list B) (s tok : str) :
  flat_map g (map_tokens f sp tok s) =
  map_tokens (fun t => flat_map g (f t)) (fun c => flat_map g (sp c)) tok s.
Proof.
  revert tok. induction s as [|c s IH]; intros tok; cbn [map_tokens];
    [reflexivity|].
  destruct (is_space c); [|apply IH].
  now rewrite !flat_map_app, IH.
Qed.

Lemma map_tokens_ext {B : Type} (f f' : str -> list B) (sp sp' : ascii -> list B)
    (s tok : str) :
  (forall t, f t = f' t) -> (forall c, sp c = sp' c) ->
  map_tokens f sp tok s = map_tokens f' sp' tok s.
Proof.
  intros Hf Hs. revert tok. induction s as [|c s IH]; intros tok;
    cbn [map_tokens]; [apply Hf|].
  destruct (is_space c); [|apply IH]. now rewrite Hf, Hs, IH.
Qed.

Lemma map_tokens_nothing {B : Type} (s tok : str) :
  map_tokens (fun _ => @nil B) (fun _ => []) tok s = [].
Proof.
  revert tok. induction s as [|c s IH]; intros tok; cbn [map_tokens];
    [reflexivity|].
  destruct (is_space c); [|apply IH]. cbn [app]. apply IH.
Qed.

Lemma space_not_hash (c : ascii) : is_space c = true -> Ascii.eqb c "#" = false.
Proof.
  intros H. destruct (Ascii.eqb c "#") eqn:E; [|reflexivity].
  apply Ascii.eqb_eq in E. subst. discriminate.
Qed.

Lemma boundary_no_hash (b : str) :
  boundary_before b = true -> hash_at_boundary b = false.
Proof.
  destruct b as [|x [|y b]]; cbn; intros H.
  - reflexivity.
  - now apply space_not_hash.
  - now rewrite (space_not_hash _ H).
Qed.

Lemma TAGS_RE_needs_hash (b a : str) :
  hash_at_boundary b = false -> match_at TAGS_RE b a = None.
Proof. intros H. now rewrite TAGS_RE_match_at, H. Qed.

Lemma inside_no_hash (pre b : str) (x : ascii) :
  pre <> [] -> forallb nonspace pre = true -> nonspace x = true ->
  hash_at_boundary (rev pre ++ x :: b) = false.
Proof.
  intros Hne Hp Hx.
  assert (Hr : forallb nonspace (rev pre) = true) by now rewrite forallb_rev.
  destruct (rev pre) as [|y r] eqn:E.
  - apply (f_equal (@rev ascii)) in E. rewrite rev_involutive in E. now subst.
  - cbn [app]. destruct r as [|z r]; cbn [app hash_at_boundary].
    + unfold nonspace in Hx. destruct (is_space x); [discriminate|].
      apply andb_false_r.
    + cbn [forallb] in Hr. apply andb_true_iff in Hr as [_ Hr].
      apply andb_true_iff in Hr as [Hz _]. unfold nonspace in Hz.
      destruct (is_space z); [discriminate|]. apply andb_false_r.
Qed.

Lemma span_word_stops (t rest : str) :
  forallb nonspace t = true -> forallb is_word t = false ->
  boundary_after (snd (span is_word (t ++ rest))) = false.
Proof.
  induction t as [|x t IH]; cbn [forallb app span]; [discriminate|].
  intros Hn Hw. apply andb_true_iff in Hn as [Hx Hn].
  destruct (is_word x); cbn [andb snd] in *.
  - now apply IH.
  - cbn [boundary_after]. unfold nonspace in Hx. now destruct (is_space x).
Qed.

Lemma TAGS_RE_at_rest (b rest : str) :
  boundary_after rest = true -> match_at TAGS_RE b rest = None.
Proof.
  intros H. rewrite TAGS_RE_match_at.
  change rest with ([] ++ rest).
  rewrite (span_exact is_word [] rest eq_refl (boundary_not_word _ H)).
  cbn [fst is_empty negb]. now rewrite andb_false_r.
Qed.

Lemma pieces_at_rest (b rest : str) :
  boundary_after rest = true ->
  pieces TAGS_RE b rest 0 =
  match rest with
  | [] => []
  | c :: rest' => Keep c :: pieces TAGS_RE (c :: b) rest' 0
  end.
Proof.
  intros H. destruct rest as [|c rest]; cbn [pieces];
    now rewrite (TAGS_RE_at_rest _ _ H).
Qed.

(** At a boundary, [TAGS_RE] finds the name of a hashtag token and nothing
    else in the token. *)
Lemma pieces_token (b t rest : str) :
  boundary_before b = true ->
  forallb nonspace t = true ->
  boundary_after rest = true ->
  pieces TAGS_RE b (t ++ rest) 0 =
  tag_pieces t ++
  match rest with
  | [] => []
  | c :: rest' => Keep c :: pieces TAGS_RE (c :: rev t ++ b) rest' 0
  end.
Proof.
  intros Hb Ht Hr. destruct t as [|x t].
  - cbn [app rev]. rewrite (pieces_at_rest _ _ Hr). reflexivity.
  - cbn [forallb] in Ht. apply andb_true_iff in Ht as [Hx Ht].
    cbn [app pieces].
    rewrite (TAGS_RE_needs_hash b _ (boundary_no_hash b Hb)).
    unfold tag_pieces. destruct (is_hashtag (x :: t)) eqn:Hh.
    + cbn [is_hashtag] in Hh. apply andb_true_iff in Hh as [Hh Hw].
      apply andb_true_iff in Hh as [Ex Hne]. apply Ascii.eqb_eq in Ex. subst x.
      destruct t as [|y t]; [discriminate|]. cbn [tl app].
      f_equal. cbn [app pieces].
      assert (Hm : match_at TAGS_RE ("#"%char :: b) (y :: t ++ rest) =
                   Some (S (List.length t))).
      { rewrite TAGS_RE_match_at.
        change (y :: t ++ rest) with ((y :: t) ++ rest).
        rewrite (span_exact is_word (y :: t) rest Hw (boundary_not_word _ Hr)).
        cbn [fst snd is_empty negb List.length]. rewrite Hr.
        assert (Hhb : hash_at_boundary ("#"%char :: b) = true).
        { destruct b as [|z b]; [reflexivity|]. cbn in Hb |- *. exact Hb. }
        now rewrite Hhb. }
      rewrite Hm.
      assert (Hf : firstn (S (List.length t)) (y :: t ++ rest) = y :: t).
      { cbn [firstn]. f_equal.
        rewrite firstn_app, Nat.sub_diag, firstn_all. cbn [firstn].
        apply app_nil_r. }
      rewrite Hf. f_equal. rewrite pieces_skip, (pieces_at_rest _ _ Hr).
      destruct rest as [|c rest]; [reflexivity|].
      cbn [rev]. now rewrite <- !app_assoc.
    + cbn [map app]. f_equal. rewrite pieces_keep.
      * f_equal. rewrite (pieces_at_rest _ _ Hr).
        destruct rest as [|c rest]; [reflexivity|].
        cbn [rev]. now rewrite <- app_assoc.
      * intros pre suf E Hs. destruct pre as [|p pre].
        -- cbn [rev app] in *. subst suf.
           destruct (Ascii.eqb x "#") eqn:Ex.
           ++ cbn [is_hashtag] in Hh. rewrite Ex in Hh. cbn [andb] in Hh.
              destruct t as [|y t]; [congruence|].
              cbn [is_empty negb andb] in Hh.
              rewrite TAGS_RE_match_at.
              rewrite (span_word_stops (y :: t) rest Ht Hh).
              now rewrite andb_false_r.
           ++ apply TAGS_RE_needs_hash.
              destruct b as [|z b]; cbn; now rewrite Ex.
        -- apply TAGS_RE_needs_hash. apply inside_no_hash.
           ++ discriminate.
           ++ rewrite E in Ht. rewrite forallb_app in Ht.
              now apply andb_true_iff in Ht as [Ht _].
           ++ exact Hx.
Qed.

Lemma pieces_tokens (n : nat) :
  forall a b, List.length a <= n -> boundary_before b = true ->
              pieces TAGS_RE b a 0 =
              map_tokens tag_pieces (fun c => [Keep c]) [] a.
Proof.
  induction n as [|n IH]; intros a b Hl Hb.
  - destruct a; [|simpl in Hl; lia].
    cbn [pieces map_tokens]. now rewrite (TAGS_RE_at_rest b [] eq_refl).
  - rewrite map_tokens_unfold. cbn [rev app].
    rewrite (span_app nonspace a) at 1.
    rewrite pieces_token;
      [| assumption | apply span_all | apply nonspace_rest_boundary].
    f_equal.
    pose proof (span_snd_length nonspace a) as Hlen.
    pose proof (nonspace_rest_boundary a) as Hr.
    destruct (snd (span nonspace a)) as [|c rest']; [reflexivity|].
    cbn [app]. f_equal. apply IH; [simpl in Hlen; lia | exact Hr].
Qed.

Lemma re_sub_tokens (s : str) :
  re_sub TAGS_RE (fun _ => []) s = strip_tokens s.
Proof.
  unfold re_sub, strip_tokens.
  rewrite (pieces_tokens _ s [] (Nat.le_refl _) eq_refl), flat_map_map_tokens.
  apply map_tokens_ext; [|reflexivity].
  intros t. unfold tag_pieces, strip_token.
  destruct (is_hashtag t); [reflexivity|].
  now rewrite (flat_map_keep _ (fun c => [c])), flat_map_single.
Qed.

Lemma re_findall_tokens (s : str) : re_findall TAGS_RE s = token_tags s.
Proof.
  unfold re_findall, token_tags.
  rewrite (pieces_tokens _ s [] (Nat.le_refl _) eq_refl), flat_map_map_tokens.
  apply map_tokens_ext; [|reflexivity].
  intros t. unfold tag_pieces, token_tag.
  destruct (is_hashtag t); [reflexivity|].
  now rewrite (flat_map_keep _ (fun _ => [])), flat_map_none.
Qed.


Lemma strip_token_nonspace (t : str) :
  forallb nonspace t = true -> forallb nonspace (strip_token t) = true.
Proof.
  intros H. unfold strip_token. now destruct (is_hashtag t).
Qed.

Lemma strip_token_plain (t : str) : is_hashtag (strip_token t) = false.
Proof.
  unfold strip_token. destruct (is_hashtag t) eqn:E; [reflexivity | exact E].
Qed.

Lemma map_tokens_stripped {B : Type} (f : str -> list B) (sp : ascii -> list B)
    (n : nat) :
  forall s, List.length s <= n ->
            map_tokens f sp [] (strip_tokens s) =
            map_tokens (fun t => f (strip_token t)) sp [] s.
Proof.
  unfold strip_tokens. induction n as [|n IH]; intros s Hl.
  - destruct s; [reflexivity | simpl in Hl; lia].
  - rewrite (map_tokens_unfold strip_token _ s []),
            (map_tokens_unfold (fun t => f (strip_token t)) sp s []).
    cbn [rev app].
    pose proof (span_all nonspace s) as Ht.
    pose proof (nonspace_rest_boundary s) as Hr.
    pose proof (span_snd_length nonspace s) as Hlen.
    set (t := fst (span nonspace s)) in *.
    destruct (snd (span nonspace s)) as [|c rest].
    + rewrite (map_tokens_token f sp (strip_token t) []
                 (strip_token_nonspace _ Ht) I).
      reflexivity.
    + cbn [app].
      rewrite (map_tokens_token f sp (strip_token t) (c :: _)
                 (strip_token_nonspace _ Ht) (boundary_not_nonspace _ Hr)).
      f_equal. f_equal. apply IH. simpl in Hlen. lia.
Qed.

(** X26: the content that [extract_tags] returns holds no tag: extracting
    the tags from it gives it back unchanged, with the empty tag set. *)
Theorem extract_tags_again (content c : str) (ts : list str) :
  extract_tags content = Ok (c, ts) ->
  extract_tags c = Ok (c, []).
Proof.
  unfold extract_tags at 1, re_extract, try_except.
  rewrite re_sub_tokens. intros H. injection H as <- _.
  unfold extract_tags, re_extract, try_except.
  rewrite re_sub_tokens, re_findall_tokens.
  unfold strip_tokens at 1, token_tags.
  rewrite !(map_tokens_stripped _ _ _ content (Nat.le_refl _)).
  f_equal. f_equal.
  - apply map_tokens_ext; [|reflexivity]. intros t.
    unfold strip_token at 1. now rewrite strip_token_plain.
  - rewrite (map_tokens_ext _ (fun _ => []) _ (fun _ => []) content []);
      [now rewrite map_tokens_nothing | | reflexivity].
    intros t. unfold token_tag. now rewrite strip_token_plain.
Qed.

Lemma extract_tags_again_witness :
  extract_tags (lit "#Work notes #work #To_Do1 x") =
    Ok (lit "# notes # # x", [lit "work"; lit "to_do1"]) /\
  extract_tags (lit "# notes # # x") = Ok (lit "# notes # # x", []).
Proof.
  split; [reflexivity|].
  exact (extract_tags_again (lit "#Work notes #work #To_Do1 x") _ _ eq_refl).
Defined.

